(** * Investor vesting contract (NEAR, near-sdk-js): a shallow embedding

    Source: [src/unnamed/part_001], class [InvestorVesting] (lines 1-533).

    Conventions of the embedding:
    - every amount, timestamp, duration and basis-point field is stored by the
      contract as a decimal string and converted with [BigInt] / [toString];
      the round trip is exact, so the fields are modelled as [Z];
    - [BigInt] division truncates toward zero: [Z.quot];
    - [UnorderedMap<...>] is a [gmap string _];
    - a method runs in a state-and-exception monad [M]; an exception carries
      the contract state as it stood when [throw] was reached, so partial
      writes made before a [throw] are visible in the raw result.  What the
      host keeps of them is decided separately by [commit]. *)

From Stdlib Require Import ZArith Lia.
From stdpp Require Import base gmap strings list.

Open Scope Z_scope.

(** ** Data model *)

Record GroupConfigStored := mkGroup {
  cliffDurationNs : Z;
  vestingDurationNs : Z;
  initialUnlockBasisPoints : Z
}.

Record InvestorRecord := mkInvestor {
  groupId : string;
  totalAllocation : Z;
  claimed : Z
}.

Record InvestorVesting := mkContract {
  owner : string;
  tokenAccountId : string;
  tgeTimestampNs : Z;
  initialClaimBasisPoints : Z;
  initialClaimAvailableTimestampNs : Z;
  totalDeposited : Z;
  totalClaimed : Z;
  totalWithdrawn : Z;
  poolBalance : Z;
  groups : gmap string GroupConfigStored;
  investors : gmap string InvestorRecord
}.

Definition BASIS_POINTS_DENOMINATOR : Z := 10000.
Definition ONE_YOCTO : Z := 1.

(** Field defaults of the class (lines 58-68). *)
Definition default_contract : InvestorVesting :=
  mkContract "" "" 0 0 0 0 0 0 0 ∅ ∅.

(** ** VestingCalculator *)

(** [computeVestedAmount] (lines 395-437).  The contract reads the TGE
    timestamp and the global initial-claim overlay from its own fields. *)
Definition computeVestedAmount (self : InvestorVesting) (total : Z)
    (group : GroupConfigStored) (timestamp : Z) : Z :=
  let start := tgeTimestampNs self in
  let cliff := cliffDurationNs group in
  let vesting := vestingDurationNs group in
  let initialClaimStart := initialClaimAvailableTimestampNs self in
  let initialClaimBps := initialClaimBasisPoints self in
  let postCliffBps := initialUnlockBasisPoints group in
  let initialPortionRaw := Z.quot (total * initialClaimBps) BASIS_POINTS_DENOMINATOR in
  let initialPortion := if initialPortionRaw >? total then total else initialPortionRaw in
  let remainingAfterInitial := total - initialPortion in
  let postCliffPortionRaw := Z.quot (total * postCliffBps) BASIS_POINTS_DENOMINATOR in
  let postCliffPortion :=
    if postCliffPortionRaw >? remainingAfterInitial
    then remainingAfterInitial else postCliffPortionRaw in
  let linearPortionBase := total - initialPortion - postCliffPortion in
  let vested := 0 in
  let vested := if timestamp >=? initialClaimStart then vested + initialPortion else vested in
  if timestamp <? start + cliff then (if vested >? total then total else vested)
  else if vesting =? 0 then total
  else
    let vested := vested + postCliffPortion in
    let elapsed := timestamp - (start + cliff) in
    if elapsed >=? vesting then total
    else
      let linearVested := Z.quot (linearPortionBase * elapsed) vesting in
      let vested := vested + linearVested in
      if vested >? total then total else vested.

(** [computeClaimable] (lines 372-393). *)
Definition computeClaimable (self : InvestorVesting) (accountId : string)
    (timestamp : Z) : Z :=
  match investors self !! accountId with
  | None => 0
  | Some record =>
      match groups self !! groupId record with
      | None => 0
      | Some group =>
          let total := totalAllocation record in
          let claimed := claimed record in
          if total =? claimed then 0
          else
            let vestable := computeVestedAmount self total group timestamp in
            if vestable <=? claimed then 0 else vestable - claimed
      end
  end.

(** The global schedule overlay of the data model (spec section 3). *)
Record Overlay := mkOverlay {
  ov_tgeTimestamp : Z;
  ov_initialClaimBasisPoints : Z;
  ov_initialClaimAvailableTimestamp : Z
}.

Definition overlay_of (self : InvestorVesting) : Overlay :=
  mkOverlay (tgeTimestampNs self) (initialClaimBasisPoints self)
    (initialClaimAvailableTimestampNs self).

(** The reference formula of spec section 4.1, written from the spec's
    words.  [initialPortion] is the capped basis-point share; it enters the
    result only once [now] has reached the overlay's availability time
    ([countedInitial]); [remainingAfterInitial] and [linearBase] subtract the
    share itself.  Division truncates toward zero. *)
Definition vestedAmount_spec (total : Z) (group : GroupConfigStored)
    (ov : Overlay) (now : Z) : Z :=
  let initialPortion :=
    Z.min total (Z.quot (total * ov_initialClaimBasisPoints ov) 10000) in
  let countedInitial :=
    if now >=? ov_initialClaimAvailableTimestamp ov then initialPortion else 0 in
  let remainingAfterInitial := total - initialPortion in
  let cliffEnd := ov_tgeTimestamp ov + cliffDurationNs group in
  if now <? cliffEnd then Z.min total countedInitial
  else
    let postCliffPortion :=
      Z.min remainingAfterInitial
        (Z.quot (total * initialUnlockBasisPoints group) 10000) in
    let linearBase := total - initialPortion - postCliffPortion in
    if vestingDurationNs group =? 0 then total
    else
      let elapsed := now - cliffEnd in
      if elapsed >=? vestingDurationNs group then total
      else countedInitial + postCliffPortion
           + Z.quot (linearBase * elapsed) (vestingDurationNs group).

(** ** Methods: exceptions, environment and the state monad *)

(** One constructor per [throw new Error(...)] of the class, plus the
    near-sdk-js guard of [@NearBindgen({ requireInit: true })]. *)
Inductive Error :=
  | AlreadyInitialized | TokenAccountRequired | TgeRequired | NotInitialized
  | NotOwner | InitialClaimParamRequired
  | InvestorsArrayRequired | InvestorFieldMissing | DuplicateInvestor
  | UnknownGroup | NonPositiveAmount | AllocationBelowClaimed
  | MissingOneYocto | NotOwnerOnBehalf | NoAllocation | NothingToClaim
  | InsufficientPoolBalance
  | WithdrawAmountRequired | NonPositiveWithdrawal | ExceedsPoolBalance
  | NotTokenCaller | DepositAmountRequired | NonPositiveDeposit
  | NotSelf | InvestorMissingDuringRevert | TransferFailed
  | GroupsRequired | GroupIdRequired | DuplicateGroupId | NegativeDuration
  | NegativeUnlockBps | UnlockBpsTooHigh
  | BasisOutOfRange | NegativeTimestamp | TimestampRequiredForBasis.

(** What a method sees of the host: [near.predecessorAccountId()],
    [near.currentAccountId()], [near.attachedDeposit()],
    [near.blockTimestamp()] and whether [near.promiseResult(0)] succeeds. *)
Record Env := mkEnv {
  predecessor : string;
  current : string;
  attachedDeposit : Z;
  blockTimestamp : Z;
  promiseOk : bool
}.

(** Raw result of running method code: a returned value, or an exception
    together with the state reached when it was thrown. *)
Inductive res (A : Type) :=
  | Ret (a : A) (s : InvestorVesting)
  | Exn (e : Error) (s : InvestorVesting).
Arguments Ret {A} a s.
Arguments Exn {A} e s.

Definition M (A : Type) := InvestorVesting -> res A.

Definition ret {A} (a : A) : M A := fun s => Ret a s.
Definition throw {A} (e : Error) : M A := fun s => Exn e s.
Definition bind {A B} (m : M A) (k : A -> M B) : M B :=
  fun s => match m s with Ret a s' => k a s' | Exn e s' => Exn e s' end.
Definition get : M InvestorVesting := fun s => Ret s s.
Definition modify (f : InvestorVesting -> InvestorVesting) : M unit :=
  fun s => Ret tt (f s).

Notation "'let*' x ':=' m 'in' k" := (bind m (fun x => k))
  (at level 200, x name, m at level 100, k at level 200).
Notation "m ;; k" := (bind m (fun _ => k)) (at level 100, right associativity).

Definition when (b : bool) (e : Error) : M unit :=
  if b then throw e else ret tt.

(** Field writers ([this.x = ...]). *)
Definition set_owner (v : string) (c : InvestorVesting) :=
  mkContract v (tokenAccountId c) (tgeTimestampNs c) (initialClaimBasisPoints c)
    (initialClaimAvailableTimestampNs c) (totalDeposited c) (totalClaimed c)
    (totalWithdrawn c) (poolBalance c) (groups c) (investors c).
Definition set_tokenAccountId (v : string) (c : InvestorVesting) :=
  mkContract (owner c) v (tgeTimestampNs c) (initialClaimBasisPoints c)
    (initialClaimAvailableTimestampNs c) (totalDeposited c) (totalClaimed c)
    (totalWithdrawn c) (poolBalance c) (groups c) (investors c).
Definition set_tgeTimestampNs (v : Z) (c : InvestorVesting) :=
  mkContract (owner c) (tokenAccountId c) v (initialClaimBasisPoints c)
    (initialClaimAvailableTimestampNs c) (totalDeposited c) (totalClaimed c)
    (totalWithdrawn c) (poolBalance c) (groups c) (investors c).
Definition set_initialClaimBasisPoints (v : Z) (c : InvestorVesting) :=
  mkContract (owner c) (tokenAccountId c) (tgeTimestampNs c) v
    (initialClaimAvailableTimestampNs c) (totalDeposited c) (totalClaimed c)
    (totalWithdrawn c) (poolBalance c) (groups c) (investors c).
Definition set_initialClaimAvailableTimestampNs (v : Z) (c : InvestorVesting) :=
  mkContract (owner c) (tokenAccountId c) (tgeTimestampNs c)
    (initialClaimBasisPoints c) v (totalDeposited c) (totalClaimed c)
    (totalWithdrawn c) (poolBalance c) (groups c) (investors c).
Definition set_totalDeposited (v : Z) (c : InvestorVesting) :=
  mkContract (owner c) (tokenAccountId c) (tgeTimestampNs c)
    (initialClaimBasisPoints c) (initialClaimAvailableTimestampNs c) v
    (totalClaimed c) (totalWithdrawn c) (poolBalance c) (groups c) (investors c).
Definition set_totalClaimed (v : Z) (c : InvestorVesting) :=
  mkContract (owner c) (tokenAccountId c) (tgeTimestampNs c)
    (initialClaimBasisPoints c) (initialClaimAvailableTimestampNs c)
    (totalDeposited c) v (totalWithdrawn c) (poolBalance c) (groups c) (investors c).
Definition set_totalWithdrawn (v : Z) (c : InvestorVesting) :=
  mkContract (owner c) (tokenAccountId c) (tgeTimestampNs c)
    (initialClaimBasisPoints c) (initialClaimAvailableTimestampNs c)
    (totalDeposited c) (totalClaimed c) v (poolBalance c) (groups c) (investors c).
Definition set_poolBalance (v : Z) (c : InvestorVesting) :=
  mkContract (owner c) (tokenAccountId c) (tgeTimestampNs c)
    (initialClaimBasisPoints c) (initialClaimAvailableTimestampNs c)
    (totalDeposited c) (totalClaimed c) (totalWithdrawn c) v (groups c) (investors c).
Definition set_groups (v : gmap string GroupConfigStored) (c : InvestorVesting) :=
  mkContract (owner c) (tokenAccountId c) (tgeTimestampNs c)
    (initialClaimBasisPoints c) (initialClaimAvailableTimestampNs c)
    (totalDeposited c) (totalClaimed c) (totalWithdrawn c) (poolBalance c) v
    (investors c).
Definition set_investors (v : gmap string InvestorRecord) (c : InvestorVesting) :=
  mkContract (owner c) (tokenAccountId c) (tgeTimestampNs c)
    (initialClaimBasisPoints c) (initialClaimAvailableTimestampNs c)
    (totalDeposited c) (totalClaimed c) (totalWithdrawn c) (poolBalance c)
    (groups c) v.

(** ** Access-control guards (lines 510-532) *)

Definition assertOwner (env : Env) : M unit :=
  let* self := get in when (negb (bool_decide (predecessor env = owner self))) NotOwner.
Definition assertOneYocto (env : Env) : M unit :=
  when (negb (attachedDeposit env =? ONE_YOCTO)) MissingOneYocto.
Definition assertSelf (env : Env) : M unit :=
  when (negb (bool_decide (predecessor env = current env))) NotSelf.
Definition assertTokenCaller (env : Env) : M unit :=
  let* self := get in
  when (negb (bool_decide (predecessor env = tokenAccountId self))) NotTokenCaller.

(** ** Inputs

    A JSON string argument that may be absent or empty is an [option]:
    [None] stands for a missing / falsy value (the code's [!x] tests), and a
    present numeric string is its [BigInt] value.  An [''] overlay argument is
    mapped by the code to ['0'] (lines 487, 499), so it is [Some 0] here. *)

Record GroupConfigInput := mkGroupInput {
  id : string;
  cliff_duration_ns : Z;
  vesting_duration_ns : Z;
  initial_unlock_basis_points : option Z
}.

Record InvestorInput := mkInvestorInput {
  account_id : string;
  group_id : string;
  amount : option Z
}.

(** The promise a method returns: an [ft_transfer] chained to its
    resolution callback. *)
Inductive Transfer :=
  | ClaimTransfer (account : string) (amt : Z)
  | WithdrawTransfer (recipient : string) (amt : Z).

(** ** GroupRegistry: [setGroupsInternal] (lines 439-472) *)

Fixpoint setGroups_loop (seen : gset string) (gs : list GroupConfigInput) : M unit :=
  match gs with
  | [] => ret tt
  | group :: rest =>
      when (bool_decide (id group = "")) GroupIdRequired;;
      when (bool_decide (id group ∈ seen)) DuplicateGroupId;;
      let seen := {[ id group ]} ∪ seen in
      let cliff := cliff_duration_ns group in
      let vesting := vesting_duration_ns group in
      let initialUnlockBps :=
        match initial_unlock_basis_points group with Some b => b | None => 0 end in
      when ((cliff <? 0) || (vesting <? 0)) NegativeDuration;;
      when (initialUnlockBps <? 0) NegativeUnlockBps;;
      when (initialUnlockBps >? BASIS_POINTS_DENOMINATOR) UnlockBpsTooHigh;;
      modify (fun s => set_groups
        (<[ id group := mkGroup cliff vesting initialUnlockBps ]> (groups s)) s);;
      setGroups_loop seen rest
  end.

Definition setGroupsInternal (gs : list GroupConfigInput) : M unit :=
  when (bool_decide (gs = [])) GroupsRequired;;
  modify (set_groups ∅);;
  setGroups_loop ∅ gs.

(** ** Overlay: [setInitialClaimConfig] (lines 482-508) *)

Definition setInitialClaimConfig (bps : option Z) (ts : option Z) : M unit :=
  let* self := get in
  let basis := match bps with Some b => b | None => initialClaimBasisPoints self end in
  when ((basis <? 0) || (basis >? BASIS_POINTS_DENOMINATOR)) BasisOutOfRange;;
  modify (set_initialClaimBasisPoints basis);;
  let* self := get in
  let timestamp :=
    match ts with Some t => t | None => initialClaimAvailableTimestampNs self end in
  when (timestamp <? 0) NegativeTimestamp;;
  when ((basis >? 0) && (timestamp =? 0)) TimestampRequiredForBasis;;
  modify (set_initialClaimAvailableTimestampNs timestamp).

(** ** [init] (lines 70-104) *)

Definition init (env : Env) (owner_arg : option string) (token_account_id : string)
    (tge_timestamp_ns : option Z) (gs : list GroupConfigInput)
    (initial_claim_basis_points initial_claim_available_timestamp_ns : option Z)
    : M unit :=
  let* self := get in
  when (negb (bool_decide (owner self = ""))) AlreadyInitialized;;
  when (bool_decide (token_account_id = "")) TokenAccountRequired;;
  match tge_timestamp_ns with
  | None => throw TgeRequired
  | Some tge =>
      modify (set_owner (match owner_arg with Some o => o | None => predecessor env end));;
      modify (set_tokenAccountId token_account_id);;
      modify (set_tgeTimestampNs tge);;
      setInitialClaimConfig initial_claim_basis_points initial_claim_available_timestamp_ns;;
      setGroupsInternal gs
  end.

Definition configure_groups (env : Env) (gs : list GroupConfigInput) : M unit :=
  assertOwner env;; setGroupsInternal gs.

Definition configure_initial_claim (env : Env) (bps ts : option Z) : M unit :=
  assertOwner env;;
  when (bool_decide (bps = None) && bool_decide (ts = None)) InitialClaimParamRequired;;
  setInitialClaimConfig bps ts.

(** ** InvestorLedger: [upsert_investors] (lines 125-170) *)

Fixpoint upsert_loop (seenAccounts : gset string) (entries : list InvestorInput) : M unit :=
  match entries with
  | [] => ret tt
  | entry :: rest =>
      match amount entry with
      | Some amt =>
          if bool_decide (account_id entry = "") || bool_decide (group_id entry = "")
          then throw InvestorFieldMissing
          else
            when (bool_decide (account_id entry ∈ seenAccounts)) DuplicateInvestor;;
            let seenAccounts := {[ account_id entry ]} ∪ seenAccounts in
            let* self := get in
            match groups self !! group_id entry with
            | None => throw UnknownGroup
            | Some _ =>
                when (amt <=? 0) NonPositiveAmount;;
                let* self := get in
                match investors self !! account_id entry with
                | Some current =>
                    let alreadyClaimed := claimed current in
                    when (amt <? alreadyClaimed) AllocationBelowClaimed;;
                    modify (fun s => set_investors
                      (<[ account_id entry := mkInvestor (group_id entry) amt alreadyClaimed ]>
                        (investors s)) s);;
                    upsert_loop seenAccounts rest
                | None =>
                    modify (fun s => set_investors
                      (<[ account_id entry := mkInvestor (group_id entry) amt 0 ]>
                        (investors s)) s);;
                    upsert_loop seenAccounts rest
                end
            end
      | None => throw InvestorFieldMissing
      end
  end.

Definition upsert_investors (env : Env) (entries : list InvestorInput) : M unit :=
  assertOwner env;;
  when (bool_decide (entries = [])) InvestorsArrayRequired;;
  upsert_loop ∅ entries.

(** ** ClaimProtocol: [claim] (lines 172-226) *)

Definition claim (env : Env) (account_id_arg : option string) : M Transfer :=
  assertOneYocto env;;
  let claimant := match account_id_arg with Some a => a | None => predecessor env end in
  let isSelfClaim := bool_decide (claimant = predecessor env) in
  let* self := get in
  when (negb isSelfClaim && negb (bool_decide (predecessor env = owner self)))
    NotOwnerOnBehalf;;
  match investors self !! claimant with
  | None => throw NoAllocation
  | Some record =>
      let claimable := computeClaimable self claimant (blockTimestamp env) in
      when (claimable <=? 0) NothingToClaim;;
      when (claimable >? poolBalance self) InsufficientPoolBalance;;
      modify (fun s => set_investors
        (<[ claimant := mkInvestor (groupId record) (totalAllocation record)
                          (claimed record + claimable) ]> (investors s)) s);;
      modify (fun s => set_totalClaimed (totalClaimed s + claimable) s);;
      modify (fun s => set_poolBalance (poolBalance s - claimable) s);;
      ret (ClaimTransfer claimant claimable)
  end.

(** ** WithdrawProtocol: [withdraw_unallocated] (lines 228-271) *)

Definition withdraw_unallocated (env : Env) (amount_arg : option Z)
    (recipient : option string) : M Transfer :=
  assertOwner env;;
  assertOneYocto env;;
  match amount_arg with
  | None => throw WithdrawAmountRequired
  | Some withdrawal =>
      when (withdrawal <=? 0) NonPositiveWithdrawal;;
      let* self := get in
      when (withdrawal >? poolBalance self) ExceedsPoolBalance;;
      let target := match recipient with Some r => r | None => owner self end in
      modify (fun s => set_poolBalance (poolBalance s - withdrawal) s);;
      modify (fun s => set_totalWithdrawn (totalWithdrawn s + withdrawal) s);;
      ret (WithdrawTransfer target withdrawal)
  end.

(** ** FundingHook: [ft_on_transfer] (lines 273-289); returns ['0']. *)

Definition ft_on_transfer (env : Env) (amount_arg : option Z) : M Z :=
  assertTokenCaller env;;
  match amount_arg with
  | None => throw DepositAmountRequired
  | Some deposit =>
      when (deposit <=? 0) NonPositiveDeposit;;
      modify (fun s => set_poolBalance (poolBalance s + deposit) s);;
      modify (fun s => set_totalDeposited (totalDeposited s + deposit) s);;
      ret 0
  end.

(** ** Resolution callbacks (lines 291-327).  [near.promiseResult(0)]
    throws when the transfer failed; the [catch] block compensates and then
    throws [Token transfer failed].  The [privateFunction] decorator performs
    the same predecessor check as [assertSelf]. *)

Definition on_claim_complete (env : Env) (account : string) (amt : Z) : M unit :=
  assertSelf env;;
  if promiseOk env then ret tt
  else
    let* self := get in
    match investors self !! account with
    | None => throw InvestorMissingDuringRevert
    | Some record =>
        modify (fun s => set_investors
          (<[ account := mkInvestor (groupId record) (totalAllocation record)
                          (claimed record - amt) ]> (investors s)) s);;
        modify (fun s => set_totalClaimed (totalClaimed s - amt) s);;
        modify (fun s => set_poolBalance (poolBalance s + amt) s);;
        throw TransferFailed
    end.

Definition on_withdraw_complete (env : Env) (amt : Z) : M unit :=
  assertSelf env;;
  if promiseOk env then ret tt
  else
    modify (fun s => set_poolBalance (poolBalance s + amt) s);;
    modify (fun s => set_totalWithdrawn (totalWithdrawn s - amt) s);;
    throw TransferFailed.

(** ** Host semantics

    The NEAR runtime executes each function call as one receipt: when the
    contract code throws, the call fails and every storage write it made is
    discarded (near-sdk-js only serialises the class fields after the method
    returns, and [UnorderedMap] writes belong to the same receipt).  [commit]
    is that rule: the raw result of the code is kept only when it returns. *)
Definition commit {A} (s0 : InvestorVesting) (r : res A) : InvestorVesting * (Error + A) :=
  match r with
  | Ret a s => (s, inr a)
  | Exn e _ => (s0, inl e)
  end.

Definition run {A} (m : M A) (s0 : InvestorVesting) : InvestorVesting * (Error + A) :=
  commit s0 (m s0).

(** The externally callable methods ([@call] decorators). *)
Inductive Method :=
  | Init (owner_arg : option string) (token_account_id : string)
      (tge_timestamp_ns : option Z) (gs : list GroupConfigInput)
      (bps ts : option Z)
  | ConfigureGroups (gs : list GroupConfigInput)
  | ConfigureInitialClaim (bps ts : option Z)
  | UpsertInvestors (entries : list InvestorInput)
  | Claim (account : option string)
  | WithdrawUnallocated (amt : option Z) (recipient : option string)
  | FtOnTransfer (sender_id : string) (amt : option Z) (msg : string)
  | OnClaimComplete (account : string) (amt : Z)
  | OnWithdrawComplete (recipient : string) (amt : Z).

(** Method body; the returned promise, when the method returns one. *)
Definition dispatch (env : Env) (m : Method) : M (option Transfer) :=
  match m with
  | Init o t tge gs b ts => init env o t tge gs b ts;; ret None
  | ConfigureGroups gs => configure_groups env gs;; ret None
  | ConfigureInitialClaim b ts => configure_initial_claim env b ts;; ret None
  | UpsertInvestors es => upsert_investors env es;; ret None
  | Claim a => let* t := claim env a in ret (Some t)
  | WithdrawUnallocated a r => let* t := withdraw_unallocated env a r in ret (Some t)
  | FtOnTransfer _ a _ => ft_on_transfer env a;; ret None
  | OnClaimComplete a n => on_claim_complete env a n;; ret None
  | OnWithdrawComplete _ n => on_withdraw_complete env n;; ret None
  end.

(** The resolution callback a returned promise is chained to. *)
Definition callback_of (t : Transfer) : Method :=
  match t with
  | ClaimTransfer a n => OnClaimComplete a n
  | WithdrawTransfer r n => OnWithdrawComplete r n
  end.

(** ** The world: the contract's storage plus the transfers in flight.
    [initialized] is near-sdk-js's own guard: with [requireInit: true] the
    [@initialize] method fails once the state exists and every other method
    fails before it. *)
Record World := mkWorld {
  initialized : bool;
  contract : InvestorVesting;
  pending : list Transfer
}.

Definition initial_world : World := mkWorld false default_contract [].

Definition is_init (m : Method) : bool :=
  match m with Init _ _ _ _ _ _ => true | _ => false end.

(** One external call. *)
Definition world_call (env : Env) (m : Method) (w : World) : World :=
  if bool_decide (initialized w = is_init m) then w
  else
    match run (dispatch env m) (contract w) with
    | (c', inr p) =>
        mkWorld true c'
          (pending w ++ match p with Some t => [t] | None => [] end)
    | (c', inl _) => mkWorld (initialized w) c' (pending w)
    end.

(** Resolution of the in-flight transfer [t]: the token contract reports
    [ok]; the callback runs as the contract itself ([predecessor = current]). *)
Definition world_resolve (self_id : string) (now : Z) (ok : bool)
    (before after : list Transfer) (t : Transfer) (w : World) : World :=
  let env := mkEnv self_id self_id 0 now ok in
  mkWorld (initialized w) (fst (run (dispatch env (callback_of t)) (contract w)))
    (before ++ after).

Inductive step : World -> World -> Prop :=
  | step_call env m w : step w (world_call env m w)
  | step_resolve self_id now ok before after t w :
      pending w = before ++ t :: after ->
      step w (world_resolve self_id now ok before after t w).

Inductive reachable : World -> Prop :=
  | reach_initial : reachable initial_world
  | reach_step w w' : reachable w -> step w w' -> reachable w'.

(** ** Well-formed contract states

    The ranges the code establishes for its stored data: the overlay's basis
    points pass [setInitialClaimConfig]'s check, every stored group passed
    [setGroupsInternal]'s checks, and every investor record satisfies
    [0 <= claimed <= totalAllocation]. *)
Definition group_ok (g : GroupConfigStored) : Prop :=
  0 <= cliffDurationNs g /\ 0 <= vestingDurationNs g /\
  0 <= initialUnlockBasisPoints g <= BASIS_POINTS_DENOMINATOR.

Definition record_ok (r : InvestorRecord) : Prop :=
  0 <= claimed r <= totalAllocation r.

Definition ledger_ok (c : InvestorVesting) : Prop :=
  0 <= initialClaimBasisPoints c <= BASIS_POINTS_DENOMINATOR /\
  map_Forall (fun _ g => group_ok g) (groups c) /\
  map_Forall (fun _ r => record_ok r) (investors c).

#[global] Instance group_ok_dec g : Decision (group_ok g).
Proof. unfold group_ok. apply _. Defined.
#[global] Instance record_ok_dec r : Decision (record_ok r).
Proof. unfold record_ok. apply _. Defined.
#[global] Instance ledger_ok_dec c : Decision (ledger_ok c).
Proof. unfold ledger_ok. apply _. Defined.

(** The pool accounting identity of spec section 3. *)
Definition pool_ok (c : InvestorVesting) : Prop :=
  poolBalance c = totalDeposited c - totalClaimed c - totalWithdrawn c.

(** * MockFungibleToken (lines 993-1237)

    The test token that funds the vesting contract.  Its [balances] field is
    a plain JS object ([Record<string, string>]), so a lookup of a missing
    key falls back to [Object.prototype]: for the inherited property names
    below [balances[k]] is a function or an object, not [undefined], and
    [k in balances] holds.  Assigning a string to [__proto__] is ignored by
    the [__proto__] setter unless the object has an own [__proto__]
    property.  Balances are stored as decimal strings written by
    [toString], so an own property is represented by its value.  The
    metadata field is written by [init] and only read by [ft_metadata]; it
    is not modelled. *)
Module MockToken.

Definition object_prototype_keys : list string :=
  ["constructor"; "__defineGetter__"; "__defineSetter__"; "hasOwnProperty";
   "__lookupGetter__"; "__lookupSetter__"; "isPrototypeOf"; "propertyIsEnumerable";
   "toString"; "valueOf"; "__proto__"; "toLocaleString"].

Inductive JsValue := JsString (z : Z) | JsUndefined | JsObject.

Record MockFungibleToken := mkToken {
  ownerId : string;
  totalSupply : Z;
  balances : gmap string Z
}.

Definition default_token : MockFungibleToken := mkToken "" 0 ∅.

(** [balances[k]] *)
Definition get_property (b : gmap string Z) (k : string) : JsValue :=
  match b !! k with
  | Some z => JsString z
  | None => if bool_decide (k ∈ object_prototype_keys) then JsObject else JsUndefined
  end.

(** [k in balances] *)
Definition has_property (b : gmap string Z) (k : string) : bool :=
  bool_decide (is_Some (b !! k)) || bool_decide (k ∈ object_prototype_keys).

(** [balances[k] = z.toString()] *)
Definition set_property (b : gmap string Z) (k : string) (z : Z) : gmap string Z :=
  if bool_decide (k = "__proto__") && bool_decide (b !! k = None) then b else <[k := z]> b.

Inductive TokenError :=
  | TokenAlreadyInitialized | OwnerAndSupplyRequired | NonPositiveSupply
  | MissingOneYoctoDeposit | NonPositiveTransfer | TransferToSelf
  | InsufficientBalance | BalanceNotNumeric | NotContractItself | AccountIdRequiredT.

Definition tbind {A B} (r : TokenError + A) (k : A -> TokenError + B) : TokenError + B :=
  match r with inl e => inl e | inr a => k a end.
Notation "'let!' x ':=' r 'in' k" := (tbind r (fun x => k))
  (at level 200, x name, r at level 100, k at level 200).

(** [getBalance] writes ['0'] for a missing key; [BigInt] of an inherited
    function or object throws. *)
Definition getBalance (b : gmap string Z) (accountId : string)
    : TokenError + (gmap string Z * Z) :=
  match get_property b accountId with
  | JsUndefined => inr (set_property b accountId 0, 0)
  | JsString z => inr (b, z)
  | JsObject => inl BalanceNotNumeric
  end.

Definition setBalance (b : gmap string Z) (accountId : string) (amount : Z) : gmap string Z :=
  set_property b accountId amount.

Definition internalTransfer (b : gmap string Z) (sender receiver : string) (amount : Z)
    : TokenError + gmap string Z :=
  if bool_decide (sender = receiver) then inl TransferToSelf else
  let! p := getBalance b sender in
  let (b1, senderBalance) := p in
  if senderBalance <? amount then inl InsufficientBalance else
  let b2 := setBalance b1 sender (senderBalance - amount) in
  let! q := getBalance b2 receiver in
  let (b3, receiverBalance) := q in
  inr (setBalance b3 receiver (receiverBalance + amount)).

(** [init]; a missing or empty [total_supply] is [None], a present one its
    [BigInt] value. *)
Definition init (owner_id : string) (total_supply : option Z) (t : MockFungibleToken)
    : TokenError + MockFungibleToken :=
  if negb (bool_decide (ownerId t = "")) then inl TokenAlreadyInitialized else
  if bool_decide (owner_id = "") then inl OwnerAndSupplyRequired else
  match total_supply with
  | None => inl OwnerAndSupplyRequired
  | Some supply =>
      if supply <=? 0 then inl NonPositiveSupply
      else inr (mkToken owner_id supply (setBalance (balances t) owner_id supply))
  end.

Definition ft_balance_of (t : MockFungibleToken) (account_id : string) : TokenError + Z :=
  let! p := getBalance (balances t) account_id in inr (snd p).

(** [storage_balance_of]: [None] is [null], [Some tt] is [{total: '0', available: '0'}]. *)
Definition storage_balance_of (t : MockFungibleToken) (account_id : string)
    : TokenError + option unit :=
  if bool_decide (account_id = "") then inl AccountIdRequiredT
  else if has_property (balances t) account_id then inr (Some tt) else inr None.

Definition storage_deposit (env : Env) (account_id : option string) (t : MockFungibleToken)
    : MockFungibleToken :=
  let target := match account_id with Some a => a | None => predecessor env end in
  if has_property (balances t) target then t
  else mkToken (ownerId t) (totalSupply t) (set_property (balances t) target 0).

Definition ft_transfer (env : Env) (receiver_id : string) (amount : Z) (t : MockFungibleToken)
    : TokenError + MockFungibleToken :=
  if negb (attachedDeposit env =? ONE_YOCTO) then inl MissingOneYoctoDeposit else
  if amount <=? 0 then inl NonPositiveTransfer else
  let! b := internalTransfer (balances t) (predecessor env) receiver_id amount in
  inr (mkToken (ownerId t) (totalSupply t) b).

(** [ft_transfer_call]: the same transfer, and the promise
    [ft_on_transfer(sender, amount)] then [ft_resolve_transfer]. *)
Definition ft_transfer_call (env : Env) (receiver_id : string) (amount : Z)
    (t : MockFungibleToken) : TokenError + (MockFungibleToken * (string * string * Z)) :=
  let! t' := ft_transfer env receiver_id amount t in
  inr (t', (predecessor env, receiver_id, amount)).

(** [ft_resolve_transfer]; [result] is the integer the code parses from the
    receiver's return value, [None] when the promise failed or the value
    does not parse.  The [privateFunction] check and [assertSelf] are the
    same test. *)
Definition ft_resolve_transfer (env : Env) (sender_id receiver_id : string) (amount : Z)
    (result : option Z) (t : MockFungibleToken) : TokenError + (MockFungibleToken * Z) :=
  if negb (bool_decide (predecessor env = current env)) then inl NotContractItself else
  let transferred := amount in
  let unused := match result with Some parsed => parsed | None => transferred end in
  let unused := if unused >? transferred then transferred else unused in
  if unused >? 0 then
    let! b := internalTransfer (balances t) receiver_id sender_id unused in
    inr (mkToken (ownerId t) (totalSupply t) b, transferred - unused)
  else inr (t, transferred - unused).

(** The token's state-changing calls, committed by the host: a call that
    throws leaves the state as it was.  Every caller, deposit and promise
    result is allowed, so this over-approximates the calls that can happen
    (near-sdk-js may refuse an [@initialize] call once state exists; that
    only removes transitions). *)
Inductive TokenMethod :=
  | TInit (owner_id : string) (total_supply : option Z)
  | TStorageDeposit (account_id : option string)
  | TTransfer (receiver_id : string) (amount : Z)
  | TTransferCall (receiver_id : string) (amount : Z)
  | TResolve (sender_id receiver_id : string) (amount : Z) (result : option Z).

Definition token_call (env : Env) (m : TokenMethod) (t : MockFungibleToken) : MockFungibleToken :=
  match m with
  | TInit o s => match init o s t with inr t' => t' | inl _ => t end
  | TStorageDeposit a => storage_deposit env a t
  | TTransfer r n => match ft_transfer env r n t with inr t' => t' | inl _ => t end
  | TTransferCall r n => match ft_transfer_call env r n t with inr (t', _) => t' | inl _ => t end
  | TResolve s r n res =>
      match ft_resolve_transfer env s r n res t with inr (t', _) => t' | inl _ => t end
  end.

Inductive token_reachable : MockFungibleToken -> Prop :=
  | token_initial : token_reachable default_token
  | token_step env m t : token_reachable t -> token_reachable (token_call env m t).

Definition sum_balances (b : gmap string Z) : Z := map_fold (fun _ z acc => z + acc) 0 b.

End MockToken.

(** The earlier revision of the contract (lines 889-913) vests linearly
    from the cliff, with no overlay and no post-cliff share. *)
Record GroupConfigStoredV0 := mkGroupV0 {
  cliffDurationNsV0 : Z;
  vestingDurationNsV0 : Z
}.

Definition computeVestedAmountV0 (tgeTimestampNs : Z) (total : Z)
    (group : GroupConfigStoredV0) (timestamp : Z) : Z :=
  let start := tgeTimestampNs in
  let cliff := cliffDurationNsV0 group in
  let vesting := vestingDurationNsV0 group in
  if timestamp <? start + cliff then 0
  else if vesting =? 0 then total
  else
    let elapsed := timestamp - (start + cliff) in
    if elapsed >=? vesting then total
    else Z.quot (total * elapsed) vesting.

(** The earlier revision's [setGroupsInternal] (lines 915-940) builds a
    fresh JS object [next] and tests [if (next[group.id])] for duplicates;
    the lookup falls back to [Object.prototype]. *)
Fixpoint setGroupsInternalV0_loop (next : gmap string GroupConfigStoredV0)
    (gs : list GroupConfigInput) : Error + gmap string GroupConfigStoredV0 :=
  match gs with
  | [] => inr next
  | group :: rest =>
      if bool_decide (id group = "") then inl GroupIdRequired
      else if bool_decide (is_Some (next !! id group)) ||
              bool_decide (id group ∈ MockToken.object_prototype_keys)
      then inl DuplicateGroupId
      else if (cliff_duration_ns group <? 0) || (vesting_duration_ns group <? 0)
      then inl NegativeDuration
      else setGroupsInternalV0_loop
             (<[id group := mkGroupV0 (cliff_duration_ns group) (vesting_duration_ns group)]> next)
             rest
  end.

Definition setGroupsInternalV0 (gs : list GroupConfigInput)
    : Error + gmap string GroupConfigStoredV0 :=
  if bool_decide (gs = []) then inl GroupsRequired else setGroupsInternalV0_loop ∅ gs.

(** * Proofs *)

(** ** Arithmetic of the vesting formula *)

Lemma cap_min (a b : Z) : (if a >? b then b else a) = Z.min b a.
Proof. destruct (Z.gtb_spec a b); lia. Qed.

Lemma quot_nonneg (a b : Z) : 0 <= a -> 0 < b -> 0 <= Z.quot a b.
Proof. intros. apply Z.quot_pos; lia. Qed.

Lemma quot_share_le (lb e v : Z) :
  0 <= lb -> 0 <= e -> e < v -> 0 <= Z.quot (lb * e) v <= lb.
Proof.
  intros Hlb He Hv.
  rewrite Z.quot_div_nonneg by nia.
  split; [apply Z.div_pos; nia|].
  apply Z.div_le_upper_bound; nia.
Qed.

(** The code's result, read in terms of the capped shares. *)
Lemma computeVestedAmount_eq self total group now :
  computeVestedAmount self total group now =
  let iP := Z.min total (Z.quot (total * initialClaimBasisPoints self) 10000) in
  let counted := if now >=? initialClaimAvailableTimestampNs self then iP else 0 in
  let pc := Z.min (total - iP) (Z.quot (total * initialUnlockBasisPoints group) 10000) in
  let cliffEnd := tgeTimestampNs self + cliffDurationNs group in
  if now <? cliffEnd then Z.min total counted
  else if vestingDurationNs group =? 0 then total
  else if now - cliffEnd >=? vestingDurationNs group then total
  else Z.min total (counted + pc
         + Z.quot ((total - iP - pc) * (now - cliffEnd)) (vestingDurationNs group)).
Proof.
  unfold computeVestedAmount, BASIS_POINTS_DENOMINATOR; cbv zeta.
  rewrite !cap_min.
  destruct (now >=? initialClaimAvailableTimestampNs self); rewrite ?Z.add_0_l; reflexivity.
Qed.

(** Range of the result on the data model's domain: a non-negative
    allocation and non-negative basis points. *)
Lemma computeVestedAmount_range self total group now :
  0 <= total -> 0 <= initialClaimBasisPoints self ->
  0 <= initialUnlockBasisPoints group ->
  0 <= computeVestedAmount self total group now <= total.
Proof.
  intros Ht Hi Hp. rewrite computeVestedAmount_eq; cbv zeta.
  set (iP := Z.min total (Z.quot (total * initialClaimBasisPoints self) 10000)).
  set (pc := Z.min (total - iP) (Z.quot (total * initialUnlockBasisPoints group) 10000)).
  assert (0 <= iP <= total).
  { subst iP. pose proof (quot_nonneg (total * initialClaimBasisPoints self) 10000). lia. }
  assert (0 <= pc <= total - iP).
  { subst pc. pose proof (quot_nonneg (total * initialUnlockBasisPoints group) 10000). lia. }
  destruct (now >=? _); destruct (Z.ltb_spec now (tgeTimestampNs self + cliffDurationNs group));
    try lia;
    destruct (vestingDurationNs group =? 0); try lia;
    destruct (Z.geb_spec (now - (tgeTimestampNs self + cliffDurationNs group))
                (vestingDurationNs group)); try lia;
    pose proof (quot_share_le (total - iP - pc)
                  (now - (tgeTimestampNs self + cliffDurationNs group))
                  (vestingDurationNs group)); lia.
Qed.

(** ** C1: the code computes the reference formula of section 4.1 *)

(** Claim C1.  On the data model's domain (a non-negative allocation and
    non-negative basis points), [computeVestedAmount] equals the reference
    formula of section 4.1: the overlay share counted once its availability
    time is reached, then the cliff, the zero-duration and the elapsed cases,
    and otherwise the counted share plus the post-cliff share plus the
    truncated linear part of the remaining base. *)
Theorem computeVestedAmount_matches_spec (self : InvestorVesting) (total : Z)
    (group : GroupConfigStored) (now : Z) :
  0 <= total -> 0 <= initialClaimBasisPoints self ->
  0 <= initialUnlockBasisPoints group ->
  computeVestedAmount self total group now =
  vestedAmount_spec total group (overlay_of self) now.
Proof.
  intros Ht Hi Hp. rewrite computeVestedAmount_eq.
  unfold vestedAmount_spec, overlay_of; cbn [ov_tgeTimestamp
    ov_initialClaimBasisPoints ov_initialClaimAvailableTimestamp]; cbv zeta.
  set (iP := Z.min total (Z.quot (total * initialClaimBasisPoints self) 10000)).
  set (pc := Z.min (total - iP) (Z.quot (total * initialUnlockBasisPoints group) 10000)).
  assert (0 <= iP <= total).
  { subst iP. pose proof (quot_nonneg (total * initialClaimBasisPoints self) 10000). lia. }
  assert (0 <= pc <= total - iP).
  { subst pc. pose proof (quot_nonneg (total * initialUnlockBasisPoints group) 10000). lia. }
  destruct (now <? _) eqn:Hc; [reflexivity|].
  apply Z.ltb_ge in Hc.
  destruct (vestingDurationNs group =? 0); [reflexivity|].
  destruct (Z.geb_spec (now - (tgeTimestampNs self + cliffDurationNs group))
              (vestingDurationNs group)); [reflexivity|].
  pose proof (quot_share_le (total - iP - pc)
                (now - (tgeTimestampNs self + cliffDurationNs group))
                (vestingDurationNs group)).
  destruct (now >=? _); lia.
Qed.

Example vested_example_half :
  computeVestedAmount (mkContract "o" "t" 100 0 0 0 0 0 0 ∅ ∅) 12
    (mkGroup 12 12 0) 118 = 6.
Proof. reflexivity. Qed.

Lemma computeVestedAmount_matches_spec_witness :
  computeVestedAmount (mkContract "o" "t" 100 1000 90 0 0 0 0 ∅ ∅) 50
    (mkGroup 12 12 1000) 117 =
  vestedAmount_spec 50 (mkGroup 12 12 1000)
    (overlay_of (mkContract "o" "t" 100 1000 90 0 0 0 0 ∅ ∅)) 117.
Proof.
  apply computeVestedAmount_matches_spec; simpl; lia.
Defined.

(** ** Claimable amount *)

Lemma ledger_ok_record c acc r :
  ledger_ok c -> investors c !! acc = Some r -> record_ok r.
Proof. intros (_ & _ & Hr) Hl. exact (Hr _ _ Hl). Qed.

Lemma ledger_ok_group c gid g :
  ledger_ok c -> groups c !! gid = Some g -> group_ok g.
Proof. intros (_ & Hg & _) Hl. exact (Hg _ _ Hl). Qed.

Lemma computeClaimable_max c acc now :
  ledger_ok c ->
  computeClaimable c acc now =
  match investors c !! acc with
  | None => 0
  | Some r =>
      match groups c !! groupId r with
      | None => 0
      | Some g => Z.max 0 (computeVestedAmount c (totalAllocation r) g now - claimed r)
      end
  end.
Proof.
  intros Hok. unfold computeClaimable.
  destruct (investors c !! acc) as [r|] eqn:Hr; [|reflexivity].
  destruct (groups c !! groupId r) as [g|] eqn:Hg; [|reflexivity].
  pose proof (ledger_ok_record _ _ _ Hok Hr) as Hro.
  pose proof (ledger_ok_group _ _ _ Hok Hg) as Hgo.
  destruct Hok as [Hi _]. unfold record_ok, group_ok in *.
  pose proof (computeVestedAmount_range c (totalAllocation r) g now) as Hv.
  destruct (Z.eqb_spec (totalAllocation r) (claimed r)); [lia|].
  destruct (Z.leb_spec (computeVestedAmount c (totalAllocation r) g now) (claimed r)); lia.
Qed.

Lemma computeClaimable_bound c acc r now :
  ledger_ok c -> investors c !! acc = Some r ->
  0 <= computeClaimable c acc now <= totalAllocation r - claimed r.
Proof.
  intros Hok Hr. rewrite (computeClaimable_max _ _ _ Hok), Hr.
  pose proof (ledger_ok_record _ _ _ Hok Hr) as Hro. unfold record_ok in Hro.
  destruct (groups c !! groupId r) as [g|] eqn:Hg; [|lia].
  pose proof (ledger_ok_group _ _ _ Hok Hg) as Hgo.
  destruct Hok as [Hi _]. unfold group_ok in Hgo.
  pose proof (computeVestedAmount_range c (totalAllocation r) g now). lia.
Qed.

(** Claim C6.  In every well-formed state (the ranges the code keeps for its
    stored data), the claimable amount of an account is
    [max(0, vestedAmount - claimed)], and [0] when the account has no record
    or its record names a group absent from the registry. *)
Theorem computeClaimable_spec (c : InvestorVesting) (acc : string) (now : Z) :
  ledger_ok c ->
  (investors c !! acc = None -> computeClaimable c acc now = 0) /\
  (forall r, investors c !! acc = Some r -> groups c !! groupId r = None ->
     computeClaimable c acc now = 0) /\
  (forall r g, investors c !! acc = Some r -> groups c !! groupId r = Some g ->
     computeClaimable c acc now =
     Z.max 0 (computeVestedAmount c (totalAllocation r) g now - claimed r)).
Proof.
  intros Hok. rewrite (computeClaimable_max _ _ _ Hok).
  split; [intros ->; reflexivity|].
  split; [intros r -> ->; reflexivity|].
  intros r g -> ->; reflexivity.
Qed.

(** A sample deployment: one 12/12 group with a 10% cliff unlock, a 5%
    overlay from time 90, and two investors. *)
Definition sample_contract : InvestorVesting :=
  mkContract "admin" "token" 100 500 90 100 10 0 90
    (<[ "seed" := mkGroup 12 12 1000 ]> ∅)
    (<[ "alice" := mkInvestor "seed" 50 10 ]>
      (<[ "bob" := mkInvestor "gone" 20 0 ]> ∅)).

Lemma sample_contract_ok : ledger_ok sample_contract.
Proof. apply (bool_decide_unpack (ledger_ok sample_contract)). vm_compute. exact I. Qed.

Lemma computeClaimable_spec_witness :
  ledger_ok sample_contract /\
  computeClaimable sample_contract "alice" 118 =
  Z.max 0 (computeVestedAmount sample_contract 50 (mkGroup 12 12 1000) 118 - 10).
Proof.
  split; [apply (bool_decide_unpack (ledger_ok sample_contract)); vm_compute; exact I|].
  apply (proj2 (proj2 (computeClaimable_spec sample_contract "alice" 118
           ltac:(apply (bool_decide_unpack (ledger_ok sample_contract)); vm_compute; exact I)))
         (mkInvestor "seed" 50 10)); vm_compute; reflexivity.
Defined.

(** Claim C10.  In every well-formed state, the vested amount lies in
    [[0, total]] for every non-negative allocation and every group
    configuration with non-negative basis points, and the claimable amount of
    an investor lies in [[0, totalAllocation - claimed]]. *)
Theorem vested_range_claimable_bound (self : InvestorVesting) (acc : string) (now : Z) :
  ledger_ok self ->
  (forall (total : Z) (group : GroupConfigStored),
     0 <= total -> 0 <= initialUnlockBasisPoints group ->
     0 <= computeVestedAmount self total group now <= total) /\
  (forall r, investors self !! acc = Some r ->
     0 <= computeClaimable self acc now <= totalAllocation r - claimed r).
Proof.
  intros Hok. split.
  - intros total group Ht Hp. apply computeVestedAmount_range; try done.
    destruct Hok as [[Hi _] _]. exact Hi.
  - intros r Hr. exact (computeClaimable_bound _ _ _ _ Hok Hr).
Qed.

Lemma vested_range_claimable_bound_witness :
  ledger_ok sample_contract /\
  0 <= computeClaimable sample_contract "alice" 118 <= 50 - 10.
Proof.
  split; [apply (bool_decide_unpack (ledger_ok sample_contract)); vm_compute; exact I|].
  apply (proj2 (vested_range_claimable_bound sample_contract "alice" 118
           ltac:(apply (bool_decide_unpack (ledger_ok sample_contract)); vm_compute; exact I))
         (mkInvestor "seed" 50 10)).
  vm_compute; reflexivity.
Defined.

(** ** Invariants of reachable worlds *)

Definition inv (c : InvestorVesting) : Prop := ledger_ok c /\ pool_ok c.

(** Simplify a hypothesis [m s = Ret a s'] along the code's control flow. *)
Ltac crunch H :=
  cbv beta iota zeta delta [bind when ret throw get modify] in H;
  repeat match type of H with
  | Exn _ _ = Ret _ _ => discriminate H
  | Ret _ _ = Ret _ _ => injection H as <- <-
  | context [match ?x with _ => _ end] =>
      tryif (match x with context [match _ with _ => _ end] => idtac end)
      then fail
      else (let E := fresh "E" in destruct x eqn:E;
            cbv beta iota zeta delta [bind when ret throw get modify] in H)
  end.

Lemma inv_claim_update s k i c :
  inv s -> investors s !! k = Some i -> 0 <= c <= totalAllocation i - claimed i ->
  inv (set_poolBalance (poolBalance s - c)
         (set_totalClaimed (totalClaimed s + c)
            (set_investors
               (<[k := mkInvestor (groupId i) (totalAllocation i) (claimed i + c)]>
                  (investors s)) s))).
Proof.
  intros [(Hb & Hg & Hr) Hp] Hi Hc.
  pose proof (Hr _ _ Hi) as Hri. unfold record_ok in Hri.
  split; [split; [exact Hb|split; [exact Hg|]]|].
  - apply map_Forall_insert_2; [unfold record_ok; simpl; lia|exact Hr].
  - unfold pool_ok in *; simpl. lia.
Qed.

Lemma claim_inv env a s t s' :
  inv s -> claim env a s = Ret t s' -> inv s'.
Proof.
  intros Hinv H. unfold claim, assertOneYocto in H. crunch H;
    apply inv_claim_update; try assumption;
    apply (computeClaimable_bound _ _ _ _ (proj1 Hinv)); assumption.
Qed.

Lemma setGroups_loop_inv seen gs :
  forall s u s', inv s -> setGroups_loop seen gs s = Ret u s' -> inv s'.
Proof.
  induction gs as [|g rest IH] in seen |- *; intros s u s' Hinv H.
  - cbn in H. injection H as <- <-. exact Hinv.
  - cbn [setGroups_loop] in H. crunch H; (eapply IH; [|exact H]);
    destruct Hinv as [(Hb & Hg & Hr) Hp];
    (split; [split; [exact Hb|split; [|exact Hr]]|exact Hp]);
    (apply map_Forall_insert_2; [|exact Hg]);
    unfold group_ok, BASIS_POINTS_DENOMINATOR in *; simpl;
    apply orb_false_iff in E1 as [E1 E1'];
    apply Z.ltb_ge in E1, E1'; rewrite ?Z.ltb_ge, ?Z.gtb_ltb, ?Z.ltb_ge in *; lia.
Qed.

Lemma setGroupsInternal_inv gs s u s' :
  inv s -> setGroupsInternal gs s = Ret u s' -> inv s'.
Proof.
  intros Hinv H. unfold setGroupsInternal in H. crunch H.
  eapply setGroups_loop_inv; [|exact H].
  destruct Hinv as [(Hb & Hg & Hr) Hp].
  split; [split; [exact Hb|split; [apply map_Forall_empty|exact Hr]]|exact Hp].
Qed.

Lemma setInitialClaimConfig_inv b ts s u s' :
  inv s -> setInitialClaimConfig b ts s = Ret u s' -> inv s'.
Proof.
  intros [(Hb & Hg & Hr) Hp] H. unfold setInitialClaimConfig in H. crunch H;
    (split; [split; [|split; [exact Hg|exact Hr]]|exact Hp]); simpl;
    apply orb_false_iff in E0 as [E0 E0'];
    unfold BASIS_POINTS_DENOMINATOR in *;
    rewrite ?Z.ltb_ge, ?Z.gtb_ltb, ?Z.ltb_ge in *; lia.
Qed.

Lemma upsert_loop_inv seen es :
  forall s u s', inv s -> upsert_loop seen es s = Ret u s' -> inv s'.
Proof.
  induction es as [|e rest IH] in seen |- *; intros s u s' Hinv H.
  - cbn in H. injection H as <- <-. exact Hinv.
  - cbn [upsert_loop] in H. crunch H; (eapply IH; [|exact H]);
    destruct Hinv as [(Hb & Hg & Hr) Hp];
    (split; [split; [exact Hb|split; [exact Hg|]]|exact Hp]);
    (apply map_Forall_insert_2; [|exact Hr]); unfold record_ok; simpl;
    rewrite ?Z.leb_gt, ?Z.ltb_ge in *; try lia.
    pose proof (Hr _ _ E4) as Hc. unfold record_ok in Hc. lia.
Qed.

Ltac chain_inv :=
  repeat match goal with
  | E : setInitialClaimConfig _ _ ?s1 = Ret _ ?s2, Hi : inv ?s0 |- _ =>
      let Hn := fresh "Hinv" in
      assert (Hn : inv s2) by ((eapply setInitialClaimConfig_inv; [|exact E]); exact Hi);
      clear E
  | E : setGroupsInternal _ ?s1 = Ret _ ?s2, Hi : inv ?s0 |- _ =>
      let Hn := fresh "Hinv" in
      assert (Hn : inv s2) by ((eapply setGroupsInternal_inv; [|exact E]); exact Hi);
      clear E
  | E : upsert_loop _ _ ?s1 = Ret _ ?s2, Hi : inv ?s0 |- _ =>
      let Hn := fresh "Hinv" in
      assert (Hn : inv s2) by ((eapply upsert_loop_inv; [|exact E]); exact Hi);
      clear E
  | E : claim _ _ ?s1 = Ret _ ?s2, Hi : inv ?s0 |- _ =>
      let Hn := fresh "Hinv" in
      assert (Hn : inv s2) by ((eapply claim_inv; [|exact E]); exact Hi);
      clear E
  end.

Lemma dispatch_inv env m s a s' :
  inv s -> dispatch env m s = Ret a s' -> inv s'.
Proof.
  intros Hinv H.
  destruct m; cbn [dispatch] in H;
    unfold init, configure_groups, configure_initial_claim, upsert_investors,
      withdraw_unallocated, ft_on_transfer, on_claim_complete, on_withdraw_complete,
      assertOwner, assertOneYocto, assertSelf, assertTokenCaller in H;
    crunch H; chain_inv; try assumption;
    destruct Hinv as [Hl Hp]; (split; [exact Hl|]); unfold pool_ok in *; simpl; lia.
Qed.

Lemma run_dispatch_inv env m s : inv s -> inv (fst (run (dispatch env m) s)).
Proof.
  intros Hinv. unfold run, commit.
  destruct (dispatch env m s) as [a s'|e s'] eqn:E; simpl; [|exact Hinv].
  exact (dispatch_inv _ _ _ _ _ Hinv E).
Qed.

Lemma step_inv w w' : inv (contract w) -> step w w' -> inv (contract w').
Proof.
  intros Hinv Hs. destruct Hs as [env m w|self_id now ok before after t w _].
  - unfold world_call. case_bool_decide; [exact Hinv|].
    pose proof (run_dispatch_inv env m (contract w) Hinv) as Hr.
    destruct (run (dispatch env m) (contract w)) as [c' [e|p]]; exact Hr.
  - unfold world_resolve. simpl. apply run_dispatch_inv. exact Hinv.
Qed.

Lemma reachable_inv w : reachable w -> inv (contract w).
Proof.
  induction 1 as [|w w' _ IH Hs].
  - split; [split; [|split; apply map_Forall_empty]|];
      unfold BASIS_POINTS_DENOMINATOR, pool_ok; simpl; lia.
  - exact (step_inv _ _ IH Hs).
Qed.

(** A concrete run: initialisation with one 12/12 group (10% at the cliff)
    and a 5% overlay from time 90, one investor, a deposit, and a claim at
    time 118. *)
Definition admin_env : Env := mkEnv "admin" "vesting" 0 0 true.
Definition demo_w1 : World :=
  world_call admin_env
    (Init None "token" (Some 100) [mkGroupInput "seed" 12 12 (Some 1000)]
       (Some 500) (Some 90)) initial_world.
Definition demo_w2 : World :=
  world_call admin_env (UpsertInvestors [mkInvestorInput "alice" "seed" (Some 50)]) demo_w1.
Definition demo_w3 : World :=
  world_call (mkEnv "token" "vesting" 0 0 true) (FtOnTransfer "admin" (Some 100) "") demo_w2.
Definition demo_w4 : World :=
  world_call (mkEnv "alice" "vesting" 1 118 true) (Claim None) demo_w3.

Ltac reach_calls :=
  repeat first
    [ apply reach_initial
    | eapply reach_step; [|apply step_call]
    | progress unfold demo_w4, demo_w3, demo_w2, demo_w1 ].

(** Claim C2.  In every world reachable from the initial one by any
    sequence of calls (init, configure_groups, configure_initial_claim,
    upsert_investors, claim, withdraw_unallocated, ft_on_transfer, the
    resolution callbacks) and transfer resolutions, every investor record
    satisfies [0 <= claimed <= totalAllocation]. *)
Theorem claimed_within_allocation (w : World) (acc : string) (r : InvestorRecord) :
  reachable w -> investors (contract w) !! acc = Some r ->
  0 <= claimed r <= totalAllocation r.
Proof.
  intros Hw Hr. destruct (reachable_inv w Hw) as [Hok _].
  exact (ledger_ok_record _ _ _ Hok Hr).
Qed.

Lemma claimed_within_allocation_witness :
  reachable demo_w4 /\ 0 <= 28 <= 50.
Proof.
  split; [reach_calls|].
  apply (claimed_within_allocation demo_w4 "alice" (mkInvestor "seed" 50 28));
    [reach_calls|vm_compute; reflexivity].
Defined.

(** Claim C3.  In every reachable world the pool counters satisfy
    [poolBalance = totalDeposited - totalClaimed - totalWithdrawn]. *)
Theorem pool_balance_identity (w : World) :
  reachable w ->
  poolBalance (contract w) =
  totalDeposited (contract w) - totalClaimed (contract w) - totalWithdrawn (contract w).
Proof. intros Hw. exact (proj2 (reachable_inv w Hw)). Qed.

Lemma pool_balance_identity_witness :
  reachable demo_w4 /\ poolBalance (contract demo_w4) = 100 - 28 - 0.
Proof.
  split; [reach_calls|].
  rewrite (pool_balance_identity demo_w4 ltac:(reach_calls)). vm_compute. reflexivity.
Defined.

(** ** ClaimProtocol, synchronous phase *)

Lemma computeClaimable_nonneg c acc now : 0 <= computeClaimable c acc now.
Proof.
  unfold computeClaimable.
  destruct (investors c !! acc) as [r|]; [|lia].
  destruct (groups c !! groupId r) as [g|]; [|lia].
  destruct (_ =? _); [lia|].
  destruct (Z.leb_spec (computeVestedAmount c (totalAllocation r) g now) (claimed r)); lia.
Qed.

(** Claim C4.  For a claim call with exactly one yoctoNEAR attached, made by
    the claimant or by the owner, on an account with an investor record: a
    claimable amount of 0 fails with [NothingToClaim] and a non-zero one
    above [poolBalance] fails with [InsufficientPoolBalance], the state left
    as it was in both cases; otherwise the call returns the [ft_transfer]
    promise of that amount and its committed state is exactly the old one
    with [claimed], [totalClaimed] increased and [poolBalance] decreased by
    it. *)
Theorem claim_protocol (env : Env) (account_arg : option string)
    (s : InvestorVesting) (r : InvestorRecord) :
  let claimant := match account_arg with Some a => a | None => predecessor env end in
  let cl := computeClaimable s claimant (blockTimestamp env) in
  attachedDeposit env = ONE_YOCTO ->
  (claimant = predecessor env \/ predecessor env = owner s) ->
  investors s !! claimant = Some r ->
  (cl = 0 -> run (claim env account_arg) s = (s, inl NothingToClaim)) /\
  (cl <> 0 -> cl > poolBalance s ->
     run (claim env account_arg) s = (s, inl InsufficientPoolBalance)) /\
  (cl <> 0 -> cl <= poolBalance s ->
     run (claim env account_arg) s =
     (set_poolBalance (poolBalance s - cl)
        (set_totalClaimed (totalClaimed s + cl)
           (set_investors
              (<[claimant := mkInvestor (groupId r) (totalAllocation r) (claimed r + cl)]>
                 (investors s)) s)),
      inr (ClaimTransfer claimant cl))).
Proof.
  intros claimant cl Hdep Hauth Hrec.
  pose proof (computeClaimable_nonneg s claimant (blockTimestamp env)) as Hnn.
  fold cl in Hnn.
  assert (Hguard :
    negb (bool_decide (claimant = predecessor env)) &&
    negb (bool_decide (predecessor env = owner s)) = false).
  { destruct Hauth as [Ha|Ha]; [rewrite (bool_decide_eq_true_2 _ Ha)
                                |rewrite (bool_decide_eq_true_2 _ Ha), andb_false_r];
    reflexivity. }
  unfold run, commit, claim, assertOneYocto.
  cbv beta iota zeta delta [bind when ret throw get modify].
  rewrite Hdep, Z.eqb_refl. cbn [negb].
  fold claimant. rewrite Hguard, Hrec. fold cl.
  split; [|split]; intros H1; [|intros H2|intros H2].
  - rewrite H1. reflexivity.
  - destruct (Z.leb_spec cl 0); [lia|].
    destruct (Z.gtb_spec cl (poolBalance s)); [reflexivity|lia].
  - destruct (Z.leb_spec cl 0); [lia|].
    destruct (Z.gtb_spec cl (poolBalance s)); [lia|reflexivity].
Qed.

Definition alice_env : Env := mkEnv "alice" "vesting" 1 118 true.

Lemma claim_protocol_witness :
  attachedDeposit alice_env = ONE_YOCTO /\
  investors (contract demo_w3) !! "alice" = Some (mkInvestor "seed" 50 0) /\
  exists s', run (claim alice_env None) (contract demo_w3) = (s', inr (ClaimTransfer "alice" 28)).
Proof.
  split; [reflexivity|split; [vm_compute; reflexivity|]].
  pose proof (claim_protocol alice_env None (contract demo_w3) (mkInvestor "seed" 50 0)
                eq_refl (or_introl eq_refl) ltac:(vm_compute; reflexivity)) as H.
  cbv zeta in H. destruct H as (_ & _ & H).
  eexists. rewrite H; [vm_compute; reflexivity|vm_compute; discriminate|vm_compute; discriminate].
Defined.

(** ** Resolution callbacks under the host's commit rule *)

(** Both callbacks either return without writing (transfer succeeded) or
    throw [TransferFailed] after their compensating writes; in both cases
    the committed state is the state before the callback. *)
Lemma resolution_callbacks_commit_nothing env (m : Method) s :
  (exists a n, m = OnClaimComplete a n) \/ (exists r n, m = OnWithdrawComplete r n) ->
  fst (run (dispatch env m) s) = s.
Proof.
  intros [(a & n & ->)|(r & n & ->)]; unfold run, commit; cbn [dispatch];
    unfold on_claim_complete, on_withdraw_complete, assertSelf;
    cbv beta iota zeta delta [bind when ret throw get modify];
    destruct (negb _); try reflexivity;
    destruct (promiseOk env); try reflexivity;
    try (destruct (investors s !! a)); reflexivity.
Qed.

(** Claim C5 (the claim half; the withdraw half is the same callback shape,
    see [resolution_callbacks_commit_nothing]).  In the demo run, alice's
    claim of 28 leaves [claimed = 28], [totalClaimed = 28] and
    [poolBalance = 72] with the transfer in flight; when the transfer fails
    and [on_claim_complete] runs, the three values stay 28, 28 and 72 instead
    of returning to their pre-claim values 0, 0 and 100. *)
Theorem failed_claim_transfer_not_compensated :
  let w5 := world_resolve "vesting" 200 false [] [] (ClaimTransfer "alice" 28) demo_w4 in
  pending demo_w4 = [] ++ ClaimTransfer "alice" 28 :: [] /\
  step demo_w4 w5 /\
  investors (contract demo_w3) !! "alice" = Some (mkInvestor "seed" 50 0) /\
  totalClaimed (contract demo_w3) = 0 /\ poolBalance (contract demo_w3) = 100 /\
  investors (contract w5) !! "alice" = Some (mkInvestor "seed" 50 28) /\
  totalClaimed (contract w5) = 28 /\ poolBalance (contract w5) = 72.
Proof.
  cbv zeta.
  assert (Hp : pending demo_w4 = [] ++ ClaimTransfer "alice" 28 :: []) by (vm_compute; reflexivity).
  split; [exact Hp|split; [apply step_resolve; exact Hp|]].
  vm_compute. repeat split.
Qed.

(** The raw callback code does write the compensation before it throws. *)
Example on_claim_complete_raw_compensates :
  match on_claim_complete (mkEnv "vesting" "vesting" 0 200 false) "alice" 28
          (contract demo_w4) with
  | Exn TransferFailed s =>
      investors s !! "alice" = Some (mkInvestor "seed" 50 0) /\
      totalClaimed s = 0 /\ poolBalance s = 100
  | _ => False
  end.
Proof. vm_compute. repeat split. Qed.

(** ** GroupRegistry: validation failures *)

Definition group_input_invalid (g : GroupConfigInput) : Prop :=
  id g = "" \/ cliff_duration_ns g < 0 \/ vesting_duration_ns g < 0 \/
  (match initial_unlock_basis_points g with Some b => b | None => 0 end) < 0 \/
  (match initial_unlock_basis_points g with Some b => b | None => 0 end) > 10000.

Lemma setGroups_loop_valid seen gs :
  forall s u s', setGroups_loop seen gs s = Ret u s' ->
  Forall (fun g => ~ group_input_invalid g /\ id g ∉ seen) gs /\ NoDup (map id gs).
Proof.
  induction gs as [|g rest IH] in seen |- *; intros s u s' H.
  - split; constructor.
  - cbn [setGroups_loop] in H. crunch H;
    destruct (IH _ _ _ _ H) as [Hf Hn];
    apply orb_false_iff in E1 as [E1 E1'];
    apply bool_decide_eq_false in E, E0;
    rewrite ?Z.ltb_ge, ?Z.gtb_ltb, ?Z.ltb_ge in *;
    (assert (Hv : ~ group_input_invalid g)
       by (unfold group_input_invalid, BASIS_POINTS_DENOMINATOR in *;
           rewrite ?E2; intros [Hid|Hbad]; [exact (E Hid)|lia]));
    (split; [constructor; [split; assumption|]|constructor; [|exact Hn]]).
    all: first
      [ eapply Forall_impl; [exact Hf|]; intros g' [H1 H2]; split; [exact H1|set_solver]
      | intros Hin; apply list_elem_of_In, in_map_iff in Hin as (g' & Hid & Hg');
        apply list_elem_of_In in Hg';
        destruct (proj1 (Forall_forall _ _) Hf g' Hg') as [_ Hn']; set_solver ].
Qed.

Lemma run_fails_unchanged {A} (m : M A) s s' e :
  run m s = (s', inl e) -> s' = s.
Proof.
  unfold run, commit. destruct (m s); intros H; inversion H; reflexivity.
Qed.

(** Claim C7.  A [configure_groups] call that fails leaves the whole
    contract state, hence the group registry, as it was; and a call whose
    input has an entry with an empty id, a negative cliff or vesting
    duration, or unlock basis points outside [[0, 10000]], or repeats an id,
    fails. *)
Theorem configure_groups_all_or_nothing (env : Env) (gs : list GroupConfigInput)
    (s : InvestorVesting) :
  (forall s' e, run (configure_groups env gs) s = (s', inl e) -> groups s' = groups s) /\
  (Exists group_input_invalid gs \/ ~ NoDup (map id gs) ->
   exists e, run (configure_groups env gs) s = (s, inl e)).
Proof.
  split.
  - intros s' e H. rewrite (run_fails_unchanged _ _ _ _ H). reflexivity.
  - intros Hbad. unfold run, commit.
    destruct (configure_groups env gs s) as [u s'|e s'] eqn:E; [exfalso|eauto].
    unfold configure_groups, assertOwner, setGroupsInternal in E. crunch E.
    destruct (setGroups_loop_valid _ _ _ _ _ E) as [Hf Hn].
    destruct Hbad as [Hex|Hnd]; [|exact (Hnd Hn)].
    apply Exists_exists in Hex as (g & Hg & Hi).
    exact (proj1 (proj1 (Forall_forall _ _) Hf g Hg) Hi).
Qed.

(** The raw code clears the registry before validating: a failure on the
    second entry leaves only the first one in the raw exception state. *)
Example setGroupsInternal_raw_partial :
  match setGroupsInternal [mkGroupInput "a" 1 1 None; mkGroupInput "b" (-1) 1 None]
          sample_contract with
  | Exn NegativeDuration s => groups s = <[ "a" := mkGroup 1 1 0 ]> ∅
  | _ => False
  end.
Proof. vm_compute. reflexivity. Qed.

Lemma configure_groups_all_or_nothing_witness :
  exists e, run (configure_groups admin_env
                   [mkGroupInput "a" 1 1 None; mkGroupInput "a" 2 2 None])
              sample_contract = (sample_contract, inl e).
Proof.
  apply (proj2 (configure_groups_all_or_nothing admin_env
                  [mkGroupInput "a" 1 1 None; mkGroupInput "a" 2 2 None] sample_contract)).
  right. apply (bool_decide_unpack _). vm_compute. exact I.
Defined.

(** ** InvestorLedger: [upsert_investors] *)

(** An entry the loop rejects, judged against the state before the call. *)
Definition investor_entry_invalid (s : InvestorVesting) (e : InvestorInput) : Prop :=
  account_id e = "" \/ group_id e = "" \/ amount e = None \/
  groups s !! group_id e = None \/
  (exists amt, amount e = Some amt /\ amt <= 0) \/
  (exists amt r, amount e = Some amt /\ investors s !! account_id e = Some r /\
                 amt < claimed r).

Lemma investor_entry_invalid_frame s k v e :
  account_id e <> k ->
  investor_entry_invalid s e ->
  investor_entry_invalid (set_investors (<[k := v]> (investors s)) s) e.
Proof.
  intros Hne Hi. unfold investor_entry_invalid in *; cbn [investors groups set_investors].
  rewrite lookup_insert_ne by congruence. exact Hi.
Qed.

Lemma upsert_loop_valid seen es :
  forall s u s', upsert_loop seen es s = Ret u s' ->
  Forall (fun e => ~ investor_entry_invalid s e /\ account_id e ∉ seen) es /\
  NoDup (map account_id es).
Proof.
  induction es as [|e rest IH] in seen |- *; intros s u s' H.
  - split; constructor.
  - cbn [upsert_loop] in H. crunch H;
    destruct (IH _ _ _ _ H) as [Hf Hn];
    apply orb_false_iff in E0 as [E0 E0'];
    apply bool_decide_eq_false in E0, E0', E1;
    rewrite ?Z.leb_gt, ?Z.ltb_ge in *;
    (assert (Hv : ~ investor_entry_invalid s e)
       by (unfold investor_entry_invalid;
           intros [Hx|[Hx|[Hx|[Hx|[(a & Ha & Hx)|(a & r & Ha & Hr & Hx)]]]]];
           congruence || (rewrite E in Ha; injection Ha as <-;
                          try (rewrite Hr in *; injection E4 as <-); lia)));
    (split; [constructor; [split; assumption|]|constructor; [|exact Hn]]).
    all: first
      [ eapply Forall_impl; [exact Hf|]; intros e' [H1 H2]; split;
        [intros Hi; apply H1; apply investor_entry_invalid_frame; [set_solver|exact Hi]
        |set_solver]
      | intros Hin; apply list_elem_of_In, in_map_iff in Hin as (e' & Hid & He');
        apply list_elem_of_In in He';
        destruct (proj1 (Forall_forall _ _) Hf e' He') as [_ Hn']; set_solver ].
Qed.

Lemma upsert_loop_frame seen es :
  forall s u s', upsert_loop seen es s = Ret u s' ->
  groups s' = groups s /\
  forall k, k ∉ map account_id es -> investors s' !! k = investors s !! k.
Proof.
  induction es as [|e rest IH] in seen |- *; intros s u s' H.
  - cbn in H. injection H as <- <-. split; reflexivity.
  - cbn [upsert_loop] in H. crunch H;
    destruct (IH _ _ _ _ H) as [Hg Hk]; (split; [exact Hg|]);
    intros k Hnk; rewrite Hk by (simpl in Hnk; set_solver);
    cbn [investors set_investors]; rewrite lookup_insert_ne by (simpl in Hnk; set_solver);
    reflexivity.
Qed.

Lemma upsert_loop_result seen es :
  forall s u s', upsert_loop seen es s = Ret u s' ->
  forall e amt, e ∈ es -> amount e = Some amt ->
  investors s' !! account_id e =
  Some (mkInvestor (group_id e) amt
          (match investors s !! account_id e with Some r => claimed r | None => 0 end)).
Proof.
  induction es as [|e0 rest IH] in seen |- *; intros s u s' H e amt Hin Ha.
  - apply list_elem_of_In in Hin. destruct Hin.
  - destruct (upsert_loop_valid _ _ _ _ _ H) as [Hf Hn].
    apply Forall_cons in Hf as [[_ Hs0] Hf].
    apply NoDup_cons in Hn as [Hn0 _].
    cbn [upsert_loop] in H. crunch H;
    destruct (upsert_loop_valid _ _ _ _ _ H) as [Hf' _];
    destruct (upsert_loop_frame _ _ _ _ _ H) as [_ Hk];
    (apply elem_of_cons in Hin as [->|Hin];
     [ rewrite Hk by exact Hn0;
       cbn [investors set_investors]; rewrite lookup_insert_eq;
       rewrite E in Ha; injection Ha as <-; rewrite ?E4; reflexivity
     | rewrite (IH _ _ _ _ H e amt Hin Ha);
       destruct (proj1 (Forall_forall _ _) Hf' e Hin) as [_ Hne];
       cbn [investors set_investors]; rewrite lookup_insert_ne by set_solver;
       reflexivity ]).
Qed.

Lemma upsert_investors_ret env es s u s' :
  upsert_investors env es s = Ret u s' -> upsert_loop ∅ es s = Ret u s'.
Proof.
  intros H. unfold upsert_investors, assertOwner in H. crunch H. destruct u. exact H.
Qed.

(** Claim C8.  A failed [upsert_investors] call leaves the investor ledger
    as it was; and a batch with an entry that misses a field, names an
    unknown group, has a non-positive amount or an amount below the
    account's [claimed], or that repeats an account, fails. *)
Theorem upsert_investors_all_or_nothing (env : Env) (es : list InvestorInput)
    (s : InvestorVesting) :
  (forall s' err, run (upsert_investors env es) s = (s', inl err) ->
     investors s' = investors s) /\
  (Exists (investor_entry_invalid s) es \/ ~ NoDup (map account_id es) ->
   exists err, run (upsert_investors env es) s = (s, inl err)).
Proof.
  split.
  - intros s' err H. rewrite (run_fails_unchanged _ _ _ _ H). reflexivity.
  - intros Hbad. unfold run, commit.
    destruct (upsert_investors env es s) as [u s'|err s'] eqn:E; [exfalso|eauto].
    destruct (upsert_loop_valid _ _ _ _ _ (upsert_investors_ret _ _ _ _ _ E)) as [Hf Hn].
    destruct Hbad as [Hex|Hnd]; [|exact (Hnd Hn)].
    apply Exists_exists in Hex as (e & He & Hi).
    exact (proj1 (proj1 (Forall_forall _ _) Hf e He) Hi).
Qed.

(** The raw loop writes entry by entry: a failure on the second entry leaves
    the first entry's record in the raw exception state. *)
Example upsert_investors_raw_partial :
  match upsert_investors admin_env
          [mkInvestorInput "carol" "seed" (Some 5); mkInvestorInput "dave" "nope" (Some 5)]
          sample_contract with
  | Exn UnknownGroup s => investors s !! "carol" = Some (mkInvestor "seed" 5 0)
  | _ => False
  end.
Proof. vm_compute. reflexivity. Qed.

Lemma upsert_investors_all_or_nothing_witness :
  exists err, run (upsert_investors admin_env
                     [mkInvestorInput "carol" "seed" (Some 5);
                      mkInvestorInput "alice" "seed" (Some 5)])
                sample_contract = (sample_contract, inl err).
Proof.
  apply (proj2 (upsert_investors_all_or_nothing admin_env
                  [mkInvestorInput "carol" "seed" (Some 5);
                   mkInvestorInput "alice" "seed" (Some 5)] sample_contract)).
  left. apply Exists_cons; right. apply Exists_cons; left.
  unfold investor_entry_invalid. right; right; right; right; right.
  exists 5, (mkInvestor "seed" 50 10). split; [reflexivity|split; [vm_compute; reflexivity|simpl; lia]].
Defined.

(** Claim C9.  For an entry of a batch whose account already has a record
    [r]: an amount below [claimed r] makes the call fail with the ledger
    unchanged; when the call succeeds, the amount is at least [claimed r]
    and the account's record becomes [{groupId := group_id, totalAllocation
    := amount, claimed := claimed r}]: [claimed] is preserved. *)
Theorem upsert_existing_account (env : Env) (es : list InvestorInput)
    (s : InvestorVesting) (e : InvestorInput) (r : InvestorRecord) (amt : Z) :
  e ∈ es -> investors s !! account_id e = Some r -> amount e = Some amt ->
  (amt < claimed r ->
   exists err, run (upsert_investors env es) s = (s, inl err)) /\
  (forall s', run (upsert_investors env es) s = (s', inr tt) ->
   claimed r <= amt /\
   investors s' !! account_id e = Some (mkInvestor (group_id e) amt (claimed r))).
Proof.
  intros Hin Hr Ha. split.
  - intros Hlt. unfold run, commit.
    destruct (upsert_investors env es s) as [u s'|err s'] eqn:E; [exfalso|eauto].
    destruct (upsert_loop_valid _ _ _ _ _ (upsert_investors_ret _ _ _ _ _ E)) as [Hf _].
    apply (proj1 (proj1 (Forall_forall _ _) Hf e Hin)).
    unfold investor_entry_invalid. right; right; right; right; right. eauto.
  - intros s' H. unfold run, commit in H.
    destruct (upsert_investors env es s) as [u s''|err s''] eqn:E; inversion H; subst.
    pose proof (upsert_investors_ret _ _ _ _ _ E) as Hl.
    destruct (upsert_loop_valid _ _ _ _ _ Hl) as [Hf _].
    split.
    + destruct (Z.le_gt_cases (claimed r) amt) as [Hle|Hgt]; [exact Hle|exfalso].
      apply (proj1 (proj1 (Forall_forall _ _) Hf e Hin)).
      unfold investor_entry_invalid. right; right; right; right; right.
      exists amt, r. repeat split; try assumption; lia.
    + rewrite (upsert_loop_result _ _ _ _ _ Hl e amt Hin Ha), Hr. reflexivity.
Qed.

Lemma upsert_existing_account_witness :
  exists err, run (upsert_investors admin_env [mkInvestorInput "alice" "seed" (Some 5)])
                sample_contract = (sample_contract, inl err).
Proof.
  apply (proj1 (upsert_existing_account admin_env [mkInvestorInput "alice" "seed" (Some 5)]
                  sample_contract (mkInvestorInput "alice" "seed" (Some 5))
                  (mkInvestor "seed" 50 10) 5
                  ltac:(constructor) ltac:(vm_compute; reflexivity) eq_refl)).
  simpl. lia.
Defined.

(** * Further properties of the contract *)

Ltac mred := cbv beta iota zeta delta [bind when ret throw get modify].




(** [claim] without exactly one yoctoNEAR attached fails with
    [MissingOneYocto]; with it, a claim for another account by anyone but
    the owner fails with [NotOwnerOnBehalf], and a claim for an account with
    no record fails with [NoAllocation]; the state is unchanged in each
    case. *)
Theorem claim_guards (env : Env) (a : option string) (s : InvestorVesting) :
  let claimant := match a with Some x => x | None => predecessor env end in
  (attachedDeposit env <> ONE_YOCTO ->
   run (claim env a) s = (s, inl MissingOneYocto)) /\
  (attachedDeposit env = ONE_YOCTO -> claimant <> predecessor env ->
   predecessor env <> owner s ->
   run (claim env a) s = (s, inl NotOwnerOnBehalf)) /\
  (attachedDeposit env = ONE_YOCTO ->
   (claimant = predecessor env \/ predecessor env = owner s) ->
   investors s !! claimant = None ->
   run (claim env a) s = (s, inl NoAllocation)).
Proof.
  intros claimant. unfold run, commit, claim, assertOneYocto. mred. fold claimant.
  split; [|split].
  - intros Hd. apply Z.eqb_neq in Hd. rewrite Hd. reflexivity.
  - intros Hd Hc Ho. rewrite Hd, Z.eqb_refl. cbn [negb].
    rewrite (bool_decide_eq_false_2 _ Hc), (bool_decide_eq_false_2 _ Ho). reflexivity.
  - intros Hd Hauth Hn. rewrite Hd, Z.eqb_refl. cbn [negb].
    assert (Hg : negb (bool_decide (claimant = predecessor env)) &&
                 negb (bool_decide (predecessor env = owner s)) = false).
    { destruct Hauth as [Ha|Ha]; [rewrite (bool_decide_eq_true_2 _ Ha)
                                  |rewrite (bool_decide_eq_true_2 _ Ha), andb_false_r];
      reflexivity. }
    rewrite Hg, Hn. reflexivity.
Qed.

Lemma claim_guards_witness :
  run (claim (mkEnv "bob2" "vesting" 1 0 true) (Some "alice")) sample_contract =
  (sample_contract, inl NotOwnerOnBehalf).
Proof.
  apply (proj1 (proj2 (claim_guards (mkEnv "bob2" "vesting" 1 0 true) (Some "alice")
                         sample_contract)));
    [reflexivity|vm_compute; discriminate|vm_compute; discriminate].
Defined.

(** The resolution callbacks called by any account other than the contract
    itself fail with [NotSelf] and leave the state unchanged. *)
Theorem callbacks_reject_foreign_callers (env : Env) (m : Method) (s : InvestorVesting) :
  (exists a n, m = OnClaimComplete a n) \/ (exists r n, m = OnWithdrawComplete r n) ->
  predecessor env <> current env ->
  run (dispatch env m) s = (s, inl NotSelf).
Proof.
  intros [(a & n & ->)|(r & n & ->)] Hne; unfold run, commit; cbn [dispatch];
    unfold on_claim_complete, on_withdraw_complete, assertSelf; mred;
    rewrite (bool_decide_eq_false_2 _ Hne); reflexivity.
Qed.

Lemma callbacks_reject_foreign_callers_witness :
  run (dispatch (mkEnv "mallory" "vesting" 0 0 false) (OnClaimComplete "alice" 5))
      sample_contract = (sample_contract, inl NotSelf).
Proof.
  apply callbacks_reject_foreign_callers; [left; eauto|vm_compute; discriminate].
Defined.

(** [withdraw_unallocated] by the owner with one yoctoNEAR attached: a
    missing amount, a non-positive amount and an amount above [poolBalance]
    each fail with the state unchanged; otherwise exactly [poolBalance]
    decreases and [totalWithdrawn] increases by the amount, and the returned
    transfer goes to the given recipient, or to the owner when none is
    given. *)
Theorem withdraw_unallocated_spec (env : Env) (amt : option Z) (recipient : option string)
    (s : InvestorVesting) :
  predecessor env = owner s -> attachedDeposit env = ONE_YOCTO ->
  (amt = None -> run (withdraw_unallocated env amt recipient) s = (s, inl WithdrawAmountRequired)) /\
  (forall w, amt = Some w -> w <= 0 ->
     run (withdraw_unallocated env amt recipient) s = (s, inl NonPositiveWithdrawal)) /\
  (forall w, amt = Some w -> 0 < w -> w > poolBalance s ->
     run (withdraw_unallocated env amt recipient) s = (s, inl ExceedsPoolBalance)) /\
  (forall w, amt = Some w -> 0 < w -> w <= poolBalance s ->
     run (withdraw_unallocated env amt recipient) s =
     (set_totalWithdrawn (totalWithdrawn s + w) (set_poolBalance (poolBalance s - w) s),
      inr (WithdrawTransfer (match recipient with Some r => r | None => owner s end) w))).
Proof.
  intros Ho Hd. unfold run, commit, withdraw_unallocated, assertOwner, assertOneYocto.
  mred. rewrite (bool_decide_eq_true_2 _ Ho), Hd, Z.eqb_refl. cbn [negb].
  split; [intros ->; reflexivity|split; [|split]]; intros w -> Hw.
  - destruct (Z.leb_spec w 0); [reflexivity|lia].
  - intros Hp. destruct (Z.leb_spec w 0); [lia|].
    destruct (Z.gtb_spec w (poolBalance s)); [reflexivity|lia].
  - intros Hp. destruct (Z.leb_spec w 0); [lia|].
    destruct (Z.gtb_spec w (poolBalance s)); [lia|reflexivity].
Qed.

Lemma withdraw_unallocated_spec_witness :
  run (withdraw_unallocated (mkEnv "admin" "vesting" 1 0 true) (Some 200) None) sample_contract =
  (sample_contract, inl ExceedsPoolBalance).
Proof.
  apply (proj1 (proj2 (proj2 (withdraw_unallocated_spec (mkEnv "admin" "vesting" 1 0 true)
           (Some 200) None sample_contract eq_refl eq_refl))) 200); [reflexivity|lia|vm_compute; reflexivity].
Defined.



(** The value [setGroupsInternal] stores for a validated input. *)
Definition stored_group (g : GroupConfigInput) : GroupConfigStored :=
  mkGroup (cliff_duration_ns g) (vesting_duration_ns g)
    (match initial_unlock_basis_points g with Some b => b | None => 0 end).

Lemma set_groups_twice a b s : set_groups a (set_groups b s) = set_groups a s.
Proof. destruct s; reflexivity. Qed.

Lemma set_groups_self s : set_groups (groups s) s = s.
Proof. destruct s; reflexivity. Qed.

Lemma setGroups_loop_frame seen gs :
  forall s u s', setGroups_loop seen gs s = Ret u s' ->
  s' = set_groups (groups s') s /\
  forall k, k ∉ map id gs -> groups s' !! k = groups s !! k.
Proof.
  induction gs as [|g rest IH] in seen |- *; intros s u s' H.
  - cbn in H. injection H as <- <-. split; [symmetry; apply set_groups_self|reflexivity].
  - cbn [setGroups_loop] in H. crunch H;
    destruct (IH _ _ _ _ H) as [Hs Hk]; split;
    [ rewrite Hs at 1; apply set_groups_twice
    | intros k Hnk; rewrite Hk by (simpl in Hnk; set_solver);
      cbn [groups set_groups]; rewrite lookup_insert_ne by (simpl in Hnk; set_solver);
      reflexivity
    | rewrite Hs at 1; apply set_groups_twice
    | intros k Hnk; rewrite Hk by (simpl in Hnk; set_solver);
      cbn [groups set_groups]; rewrite lookup_insert_ne by (simpl in Hnk; set_solver);
      reflexivity ].
Qed.

Lemma setGroups_loop_result seen gs :
  forall s u s', setGroups_loop seen gs s = Ret u s' ->
  forall g, g ∈ gs -> groups s' !! id g = Some (stored_group g).
Proof.
  induction gs as [|g0 rest IH] in seen |- *; intros s u s' H g Hin.
  - apply list_elem_of_In in Hin. destruct Hin.
  - destruct (setGroups_loop_valid _ _ _ _ _ H) as [_ Hn].
    apply NoDup_cons in Hn as [Hn0 _].
    cbn [setGroups_loop] in H. crunch H;
    destruct (setGroups_loop_frame _ _ _ _ _ H) as [_ Hk];
    (apply elem_of_cons in Hin as [->|Hin];
     [ rewrite Hk by exact Hn0; cbn [groups set_groups]; rewrite lookup_insert_eq;
       unfold stored_group; rewrite ?E2; reflexivity
     | exact (IH _ _ _ _ H g Hin) ]).
Qed.

(** A successful [configure_groups] replaces the group table by exactly the
    submitted groups: each submitted id maps to its cliff, vesting duration
    and unlock share (0 when omitted), no other id remains, and no other
    field of the contract changes (the investor ledger and the counters are
    kept as they were). *)
Theorem configure_groups_stores (env : Env) (gs : list GroupConfigInput)
    (s s' : InvestorVesting) :
  run (configure_groups env gs) s = (s', inr tt) ->
  (forall g, g ∈ gs -> groups s' !! id g = Some (stored_group g)) /\
  (forall k, k ∉ map id gs -> groups s' !! k = None) /\
  s' = set_groups (groups s') s.
Proof.
  unfold run, commit.
  destruct (configure_groups env gs s) as [u s1|e s1] eqn:E; intros H; [|discriminate H].
  injection H as <-. unfold configure_groups, assertOwner, setGroupsInternal in E.
  crunch E.
  destruct (setGroups_loop_frame _ _ _ _ _ E) as [Hs Hk].
  split; [exact (setGroups_loop_result _ _ _ _ _ E)|split].
  - intros k Hnk. rewrite Hk by exact Hnk. reflexivity.
  - rewrite Hs at 1. apply set_groups_twice.
Qed.

Lemma configure_groups_stores_witness :
  groups (fst (run (configure_groups admin_env [mkGroupInput "core" 5 20 None])
                 sample_contract)) !! "core" = Some (mkGroup 5 20 0).
Proof.
  apply (proj1 (configure_groups_stores admin_env [mkGroupInput "core" 5 20 None]
            sample_contract _ ltac:(vm_compute; reflexivity)) (mkGroupInput "core" 5 20 None)).
  apply elem_of_cons. left. reflexivity.
Defined.

(** A successful [configure_initial_claim] was called by the owner with at
    least one of its two parameters, and changes only the overlay: the new
    basis points are the given ones (or the old ones when omitted) and lie
    in [0, 10000], the new availability timestamp is the given one (or the
    old one) and is non-negative, and a positive basis comes with a non-zero
    timestamp. *)
Theorem configure_initial_claim_effect (env : Env) (bps ts : option Z)
    (s s' : InvestorVesting) :
  run (configure_initial_claim env bps ts) s = (s', inr tt) ->
  let b := match bps with Some b => b | None => initialClaimBasisPoints s end in
  let t := match ts with Some t => t | None => initialClaimAvailableTimestampNs s end in
  predecessor env = owner s /\ (bps <> None \/ ts <> None) /\
  s' = set_initialClaimAvailableTimestampNs t (set_initialClaimBasisPoints b s) /\
  0 <= b <= BASIS_POINTS_DENOMINATOR /\ 0 <= t /\ (0 < b -> t <> 0).
Proof.
  unfold run, commit.
  destruct (configure_initial_claim env bps ts s) as [u s1|e s1] eqn:E; intros H;
    [|discriminate H].
  injection H as <-. cbv zeta.
  unfold configure_initial_claim, assertOwner, setInitialClaimConfig in E.
  crunch E.
  all: apply negb_false_iff, bool_decide_eq_true in E0.
  all: try (rewrite !bool_decide_eq_true_2 in E1 by reflexivity; discriminate E1).
  all: cbn [initialClaimAvailableTimestampNs initialClaimBasisPoints
            set_initialClaimBasisPoints] in *.
  all: apply orb_false_iff in E3 as [E3 E3']; apply andb_false_iff in E6;
    rewrite ?Z.gtb_ltb, ?Z.ltb_ge, ?Z.eqb_neq in *; unfold BASIS_POINTS_DENOMINATOR in *.
  all: split; [exact E0|split; [first [left; discriminate|right; discriminate]|
                                split; [reflexivity|]]].
  all: destruct E6; lia.
Qed.

Lemma configure_initial_claim_effect_witness :
  fst (run (configure_initial_claim admin_env (Some 2000) None) sample_contract) =
  set_initialClaimAvailableTimestampNs 90 (set_initialClaimBasisPoints 2000 sample_contract).
Proof.
  exact (proj1 (proj2 (proj2 (configure_initial_claim_effect admin_env (Some 2000) None
           sample_contract
           (fst (run (configure_initial_claim admin_env (Some 2000) None) sample_contract))
           ltac:(vm_compute; reflexivity))))).
Defined.

(** [init]: on a contract that already has an owner it fails with
    [AlreadyInitialized] and changes nothing; a successful [init] ran on an
    ownerless contract with a non-empty token account, sets the owner (the
    given one, or the caller when none is given), the token account and the
    TGE timestamp, installs exactly the submitted groups, and leaves the
    investor ledger and the four counters as they were. *)
Theorem init_effect (env : Env) (owner_arg : option string) (tok : string)
    (tge : option Z) (gs : list GroupConfigInput) (bps ts : option Z)
    (s : InvestorVesting) :
  (owner s <> "" -> run (init env owner_arg tok tge gs bps ts) s = (s, inl AlreadyInitialized)) /\
  (forall s', run (init env owner_arg tok tge gs bps ts) s = (s', inr tt) ->
   owner s = "" /\ tok <> "" /\
   owner s' = match owner_arg with Some o => o | None => predecessor env end /\
   tokenAccountId s' = tok /\ tge = Some (tgeTimestampNs s') /\
   investors s' = investors s /\ totalDeposited s' = totalDeposited s /\
   totalClaimed s' = totalClaimed s /\ totalWithdrawn s' = totalWithdrawn s /\
   poolBalance s' = poolBalance s /\
   (forall g, g ∈ gs -> groups s' !! id g = Some (stored_group g)) /\
   (forall k, k ∉ map id gs -> groups s' !! k = None)).
Proof.
  split.
  - intros Ho. unfold run, commit, init. mred.
    rewrite (bool_decide_eq_false_2 _ Ho). reflexivity.
  - intros s'. unfold run, commit.
    destruct (init env owner_arg tok tge gs bps ts s) as [u s1|e s1] eqn:E; intros H;
      [|discriminate H].
    injection H as <-.
    unfold init, setInitialClaimConfig, setGroupsInternal in E. crunch E.
    all: apply negb_false_iff, bool_decide_eq_true in E0.
    all: apply bool_decide_eq_false in E1.
    all: pose proof (setGroups_loop_result _ _ _ _ _ E) as Hr.
    all: destruct (setGroups_loop_frame _ _ _ _ _ E) as [Hs Hk].
    all: split; [exact E0|split; [exact E1|]].
    all: split; [rewrite Hs; reflexivity|split; [rewrite Hs; reflexivity|]].
    all: split; [rewrite Hs; reflexivity|].
    all: split; [rewrite Hs; reflexivity|split; [rewrite Hs; reflexivity|]].
    all: split; [rewrite Hs; reflexivity|split; [rewrite Hs; reflexivity|]].
    all: split; [rewrite Hs; reflexivity|split; [exact Hr|]].
    all: intros k Hnk; rewrite Hk by exact Hnk; reflexivity.
Qed.

Lemma init_effect_witness :
  owner (fst (run (init admin_env None "token" (Some 100) [mkGroupInput "seed" 12 12 (Some 1000)]
                 (Some 500) (Some 90)) default_contract)) = "admin".
Proof.
  pose proof (proj2 (init_effect admin_env None "token" (Some 100)
           [mkGroupInput "seed" 12 12 (Some 1000)] (Some 500) (Some 90) default_contract)
           (fst (run (init admin_env None "token" (Some 100)
                        [mkGroupInput "seed" 12 12 (Some 1000)] (Some 500) (Some 90))
                     default_contract))
           ltac:(vm_compute; reflexivity)) as Hi.
  exact (proj1 (proj2 (proj2 Hi))).
Defined.

(** [computeVestedAmount] never decreases as time passes (for a
    non-negative allocation and non-negative basis points). *)
Theorem computeVestedAmount_monotone (self : InvestorVesting) (total : Z)
    (g : GroupConfigStored) (t1 t2 : Z) :
  0 <= total -> 0 <= initialClaimBasisPoints self -> 0 <= initialUnlockBasisPoints g ->
  t1 <= t2 ->
  computeVestedAmount self total g t1 <= computeVestedAmount self total g t2.
Proof.
  intros Ht Hi Hp H12. rewrite !computeVestedAmount_eq; cbv zeta.
  set (iP := Z.min total (Z.quot (total * initialClaimBasisPoints self) 10000)).
  set (pc := Z.min (total - iP) (Z.quot (total * initialUnlockBasisPoints g) 10000)).
  set (ce := tgeTimestampNs self + cliffDurationNs g).
  set (v := vestingDurationNs g).
  set (a := initialClaimAvailableTimestampNs self).
  assert (0 <= iP <= total).
  { subst iP. pose proof (quot_nonneg (total * initialClaimBasisPoints self) 10000). lia. }
  assert (0 <= pc <= total - iP).
  { subst pc. pose proof (quot_nonneg (total * initialUnlockBasisPoints g) 10000). lia. }
  assert (Hq : forall e1 e2, 0 <= e1 <= e2 -> e2 < v ->
            0 <= Z.quot ((total - iP - pc) * e1) v <= Z.quot ((total - iP - pc) * e2) v).
  { intros e1 e2 He Hv. rewrite !Z.quot_div_nonneg by nia.
    split; [apply Z.div_pos; nia|apply Z.div_le_mono; nia]. }
  destruct (Z.geb_spec t1 a), (Z.geb_spec t2 a); try lia;
  destruct (Z.ltb_spec t1 ce), (Z.ltb_spec t2 ce); try lia;
  destruct (Z.eqb_spec v 0); try lia;
  destruct (Z.geb_spec (t1 - ce) v), (Z.geb_spec (t2 - ce) v); try lia;
  first [ pose proof (Hq 0 (t2 - ce) ltac:(lia) ltac:(lia)); lia
        | pose proof (Hq (t1 - ce) (t2 - ce) ltac:(lia) ltac:(lia)); lia
        | pose proof (Hq (t1 - ce) (t1 - ce) ltac:(lia) ltac:(lia)); lia ].
Qed.

Lemma computeVestedAmount_monotone_witness :
  computeVestedAmount sample_contract 50 (mkGroup 12 12 1000) 115 <=
  computeVestedAmount sample_contract 50 (mkGroup 12 12 1000) 118.
Proof.
  apply computeVestedAmount_monotone; vm_compute; congruence.
Defined.

(** Once the cliff and the whole vesting duration have elapsed, an
    account's claimable amount is everything it has not claimed yet. *)
Theorem computeClaimable_fully_vested (s : InvestorVesting) (acc : string)
    (r : InvestorRecord) (g : GroupConfigStored) (now : Z) :
  ledger_ok s -> investors s !! acc = Some r -> groups s !! groupId r = Some g ->
  tgeTimestampNs s + cliffDurationNs g + vestingDurationNs g <= now ->
  computeClaimable s acc now = totalAllocation r - claimed r.
Proof.
  intros Hok Hr Hg Hn. rewrite (computeClaimable_max _ _ _ Hok), Hr, Hg.
  pose proof (ledger_ok_record _ _ _ Hok Hr) as Hro.
  pose proof (ledger_ok_group _ _ _ Hok Hg) as Hgo.
  unfold record_ok, group_ok in *.
  rewrite computeVestedAmount_eq; cbv zeta.
  destruct (Z.ltb_spec now (tgeTimestampNs s + cliffDurationNs g)); [lia|].
  destruct (Z.eqb_spec (vestingDurationNs g) 0); [lia|].
  destruct (Z.geb_spec (now - (tgeTimestampNs s + cliffDurationNs g)) (vestingDurationNs g));
    lia.
Qed.

Lemma computeClaimable_fully_vested_witness :
  computeClaimable sample_contract "alice" 124 = 50 - 10.
Proof.
  apply (computeClaimable_fully_vested sample_contract "alice" (mkInvestor "seed" 50 10)
           (mkGroup 12 12 1000) 124); [exact sample_contract_ok|vm_compute; reflexivity..|].
  vm_compute. congruence.
Defined.

(** Before the cliff ends the vested amount is at most the overlay share
    [total * initialClaimBasisPoints / 10000], and it is [0] while the
    overlay is not yet available either. *)
Theorem computeVestedAmount_before_cliff (self : InvestorVesting) (total : Z)
    (g : GroupConfigStored) (now : Z) :
  0 <= total -> 0 <= initialClaimBasisPoints self ->
  now < tgeTimestampNs self + cliffDurationNs g ->
  computeVestedAmount self total g now <=
    Z.quot (total * initialClaimBasisPoints self) BASIS_POINTS_DENOMINATOR /\
  (now < initialClaimAvailableTimestampNs self -> computeVestedAmount self total g now = 0).
Proof.
  intros Ht Hi Hc. rewrite computeVestedAmount_eq; cbv zeta.
  unfold BASIS_POINTS_DENOMINATOR.
  pose proof (quot_nonneg (total * initialClaimBasisPoints self) 10000).
  destruct (Z.ltb_spec now (tgeTimestampNs self + cliffDurationNs g)); [|lia].
  destruct (Z.geb_spec now (initialClaimAvailableTimestampNs self)); split; lia.
Qed.

Lemma computeVestedAmount_before_cliff_witness :
  computeVestedAmount sample_contract 50 (mkGroup 12 12 1000) 80 = 0.
Proof.
  apply (computeVestedAmount_before_cliff sample_contract 50 (mkGroup 12 12 1000) 80);
    vm_compute; congruence.
Defined.

(** ** How one call can change the ledger

    [evolves s s'] collects what every committed call preserves: the three
    running totals never decrease, no investor record disappears and no
    record's [claimed] decreases, a non-negative pool stays non-negative,
    and [totalClaimed] stays the sum of the records' [claimed]. *)
Definition sum_claimed (m : gmap string InvestorRecord) : Z :=
  map_fold (fun _ r acc => claimed r + acc) 0 m.

Definition grows (s s' : InvestorVesting) : Prop :=
  totalDeposited s <= totalDeposited s' /\ totalClaimed s <= totalClaimed s' /\
  totalWithdrawn s <= totalWithdrawn s' /\
  forall k r, investors s !! k = Some r ->
    exists r', investors s' !! k = Some r' /\ claimed r <= claimed r'.

Definition evolves (s s' : InvestorVesting) : Prop :=
  grows s s' /\ (0 <= poolBalance s -> 0 <= poolBalance s') /\
  (totalClaimed s = sum_claimed (investors s) ->
   totalClaimed s' = sum_claimed (investors s')).

Lemma sum_claimed_insert m k r :
  sum_claimed (<[k := r]> m) =
  claimed r + sum_claimed m - match m !! k with Some r0 => claimed r0 | None => 0 end.
Proof.
  unfold sum_claimed. rewrite <- insert_delete_eq.
  rewrite map_fold_insert_L; [|intros; cbv beta; lia|apply lookup_delete_eq].
  destruct (m !! k) as [r0|] eqn:Hk.
  - rewrite (map_fold_delete_L (fun (_ : string) (r : InvestorRecord) (acc : Z) => claimed r + acc)
                  0 k r0 m); [lia| |exact Hk].
    intros; cbv beta; lia.
  - rewrite delete_id by exact Hk. lia.
Qed.

Lemma evolves_refl s : evolves s s.
Proof.
  split; [|split; [tauto|tauto]].
  split; [lia|split; [lia|split; [lia|]]]. intros k r Hk. exists r. split; [exact Hk|lia].
Qed.

Lemma evolves_trans s1 s2 s3 : evolves s1 s2 -> evolves s2 s3 -> evolves s1 s3.
Proof.
  intros [(A1 & B1 & C1 & D1) [P1 S1]] [(A2 & B2 & C2 & D2) [P2 S2]].
  split; [|split; [tauto|tauto]].
  split; [lia|split; [lia|split; [lia|]]].
  intros k r Hk. destruct (D1 k r Hk) as (r2 & Hk2 & Hc2).
  destruct (D2 k r2 Hk2) as (r3 & Hk3 & Hc3). exists r3. split; [exact Hk3|lia].
Qed.

Lemma evolves_frame s s' :
  investors s' = investors s -> totalDeposited s' = totalDeposited s ->
  totalClaimed s' = totalClaimed s -> totalWithdrawn s' = totalWithdrawn s ->
  poolBalance s' = poolBalance s -> evolves s s'.
Proof.
  intros Hi Hd Hc Hw Hp. split; [|split; [lia|]].
  - split; [lia|split; [lia|split; [lia|]]].
    intros k r Hk. exists r. rewrite Hi. split; [exact Hk|lia].
  - rewrite Hi, Hc. tauto.
Qed.

Lemma evolves_record s k cur v :
  investors s !! k = cur ->
  (match cur with Some r0 => claimed r0 | None => 0 end) = claimed v ->
  evolves s (set_investors (<[k := v]> (investors s)) s).
Proof.
  intros Hk Hc. split; [|split; [tauto|]].
  - unfold grows; cbn [totalDeposited totalClaimed totalWithdrawn set_investors].
    split; [lia|split; [lia|split; [lia|]]].
    intros j r Hj. cbn [investors set_investors].
    destruct (decide (j = k)) as [->|Hne].
    + rewrite lookup_insert_eq. exists v. rewrite Hj in Hk. subst cur. cbn in Hc.
      split; [reflexivity|lia].
    + rewrite lookup_insert_ne by congruence. exists r. split; [exact Hj|lia].
  - cbn [investors totalClaimed set_investors]. rewrite sum_claimed_insert, Hk. lia.
Qed.

Lemma evolves_claim_update s k i c :
  investors s !! k = Some i -> 0 < c -> c <= poolBalance s ->
  evolves s (set_poolBalance (poolBalance s - c)
              (set_totalClaimed (totalClaimed s + c)
                 (set_investors
                    (<[k := mkInvestor (groupId i) (totalAllocation i) (claimed i + c)]>
                       (investors s)) s))).
Proof.
  intros Hk Hc Hp. split; [|split; [cbn; lia|]].
  - unfold grows. split; [cbn; lia|split; [cbn; lia|split; [cbn; lia|]]].
    intros j r Hj. cbn [investors set_investors set_totalClaimed set_poolBalance].
    destruct (decide (j = k)) as [->|Hne].
    + rewrite lookup_insert_eq. eexists. split; [reflexivity|].
      rewrite Hj in Hk. injection Hk as ->. cbn. lia.
    + rewrite lookup_insert_ne by congruence. exists r. split; [exact Hj|lia].
  - cbn [investors totalClaimed set_investors set_totalClaimed set_poolBalance].
    rewrite sum_claimed_insert, Hk. cbn [claimed]. lia.
Qed.

Ltac frame_evolves := apply evolves_frame; reflexivity.

Lemma setInitialClaimConfig_evolves b t s u s' :
  setInitialClaimConfig b t s = Ret u s' -> evolves s s'.
Proof. intros H. unfold setInitialClaimConfig in H. crunch H; frame_evolves. Qed.

Lemma setGroupsInternal_evolves gs s u s' :
  setGroupsInternal gs s = Ret u s' -> evolves s s'.
Proof.
  intros H. unfold setGroupsInternal in H. crunch H.
  destruct (setGroups_loop_frame _ _ _ _ _ H) as [Hs _]. rewrite Hs. frame_evolves.
Qed.

Lemma upsert_loop_evolves seen es :
  forall s u s', upsert_loop seen es s = Ret u s' -> evolves s s'.
Proof.
  induction es as [|e rest IH] in seen |- *; intros s u s' H.
  - cbn in H. injection H as <- <-. apply evolves_refl.
  - cbn [upsert_loop] in H. crunch H; (eapply evolves_trans; [|exact (IH _ _ _ _ H)]);
      (eapply evolves_record; [eassumption|reflexivity]).
Qed.

Lemma claim_evolves env a s t s' :
  claim env a s = Ret t s' -> evolves s s'.
Proof.
  intros H. unfold claim, assertOneYocto in H. crunch H;
  rewrite ?Z.gtb_ltb, ?Z.leb_gt, ?Z.ltb_ge in *;
  apply evolves_claim_update; assumption.
Qed.

Ltac chain_evolves :=
  repeat match goal with
  | E : setInitialClaimConfig _ _ ?s1 = Ret _ ?s2 |- evolves ?s0 ?s2 =>
      apply (evolves_trans s0 s1); [|exact (setInitialClaimConfig_evolves _ _ _ _ _ E)]
  | E : setGroupsInternal _ ?s1 = Ret _ ?s2 |- evolves ?s0 ?s2 =>
      apply (evolves_trans s0 s1); [|exact (setGroupsInternal_evolves _ _ _ _ E)]
  | E : upsert_loop _ _ ?s1 = Ret _ ?s2 |- evolves ?s0 ?s2 =>
      apply (evolves_trans s0 s1); [|exact (upsert_loop_evolves _ _ _ _ _ E)]
  | E : claim _ _ ?s1 = Ret _ ?s2 |- evolves ?s0 ?s2 =>
      apply (evolves_trans s0 s1); [|exact (claim_evolves _ _ _ _ _ E)]
  end.

Lemma dispatch_evolves env m s a s' :
  dispatch env m s = Ret a s' -> evolves s s'.
Proof.
  intros H.
  destruct m; cbn [dispatch] in H;
    unfold init, configure_groups, configure_initial_claim, upsert_investors,
      withdraw_unallocated, ft_on_transfer, on_claim_complete, on_withdraw_complete,
      assertOwner, assertOneYocto, assertSelf, assertTokenCaller in H;
    crunch H; chain_evolves;
    first [ apply evolves_refl | frame_evolves | idtac ].
  all: rewrite ?Z.gtb_ltb, ?Z.leb_gt, ?Z.ltb_ge in *.
  all: split; [unfold grows; cbn; split; [lia|split; [lia|split; [lia|]]];
               intros k r Hk; exists r; split; [exact Hk|lia]
              |cbn; split; [lia|tauto]].
Qed.

Lemma run_dispatch_evolves env m s : evolves s (fst (run (dispatch env m) s)).
Proof.
  unfold run, commit.
  destruct (dispatch env m s) as [a s'|e s'] eqn:E; simpl; [|apply evolves_refl].
  exact (dispatch_evolves _ _ _ _ _ E).
Qed.

Lemma step_evolves w w' : step w w' -> evolves (contract w) (contract w').
Proof.
  intros Hs. destruct Hs as [env m w|self_id now ok before after t w _].
  - unfold world_call. case_bool_decide; [apply evolves_refl|].
    pose proof (run_dispatch_evolves env m (contract w)) as Hr.
    destruct (run (dispatch env m) (contract w)) as [c' [e|p]]; exact Hr.
  - unfold world_resolve. simpl. apply run_dispatch_evolves.
Qed.

Lemma reachable_claimed_sum w :
  reachable w ->
  0 <= totalDeposited (contract w) /\ 0 <= totalClaimed (contract w) /\
  0 <= totalWithdrawn (contract w) /\ 0 <= poolBalance (contract w) /\
  totalClaimed (contract w) = sum_claimed (investors (contract w)).
Proof.
  induction 1 as [|w w' _ IH Hs].
  - vm_compute. repeat split; congruence.
  - destruct (step_evolves _ _ Hs) as [(Hd & Hc & Hw & _) [Hp Hsum]].
    destruct IH as (Hd0 & Hc0 & Hw0 & Hp0 & Hs0).
    split; [lia|split; [lia|split; [lia|split; [exact (Hp Hp0)|exact (Hsum Hs0)]]]].
Qed.

(** Across any single step of the world (a call, or the resolution of a
    transfer in flight), [totalDeposited], [totalClaimed] and
    [totalWithdrawn] never decrease, no investor record is ever deleted, and
    no record's [claimed] ever decreases. *)
Theorem step_monotone (w w' : World) :
  step w w' ->
  totalDeposited (contract w) <= totalDeposited (contract w') /\
  totalClaimed (contract w) <= totalClaimed (contract w') /\
  totalWithdrawn (contract w) <= totalWithdrawn (contract w') /\
  (forall k r, investors (contract w) !! k = Some r ->
     exists r', investors (contract w') !! k = Some r' /\ claimed r <= claimed r').
Proof. intros Hs. exact (proj1 (step_evolves w w' Hs)). Qed.

Lemma step_monotone_witness :
  totalClaimed (contract demo_w3) <= totalClaimed (contract demo_w4).
Proof.
  exact (proj1 (proj2 (step_monotone demo_w3 demo_w4 (step_call _ _ _)))).
Defined.

(** In every reachable world the three running totals and the pool balance
    are non-negative. *)
Theorem reachable_counters_nonneg (w : World) :
  reachable w ->
  0 <= totalDeposited (contract w) /\ 0 <= totalClaimed (contract w) /\
  0 <= totalWithdrawn (contract w) /\ 0 <= poolBalance (contract w).
Proof.
  intros Hw. destruct (reachable_claimed_sum w Hw) as (A & B & C & D & _).
  split; [exact A|split; [exact B|split; [exact C|exact D]]].
Qed.

Lemma reachable_counters_nonneg_witness : 0 <= poolBalance (contract demo_w4).
Proof.
  exact (proj2 (proj2 (proj2 (reachable_counters_nonneg demo_w4 ltac:(reach_calls))))).
Defined.

(** In every reachable world [totalClaimed] is the sum of the [claimed]
    fields of all investor records. *)
Theorem total_claimed_is_sum (w : World) :
  reachable w -> totalClaimed (contract w) = sum_claimed (investors (contract w)).
Proof. intros Hw. exact (proj2 (proj2 (proj2 (proj2 (reachable_claimed_sum w Hw))))). Qed.

Lemma total_claimed_is_sum_witness :
  totalClaimed (contract demo_w4) = sum_claimed (investors (contract demo_w4)).
Proof. exact (total_claimed_is_sum demo_w4 ltac:(reach_calls)). Defined.

(** ** The mock token *)
Module MockTokenProofs.
Import MockToken.

Definition nonneg (b : gmap string Z) : Prop := map_Forall (fun _ z => 0 <= z) b.

Definition balance_or_zero (b : gmap string Z) (k : string) : Z :=
  match b !! k with Some z => z | None => 0 end.

Lemma sum_balances_insert b k z :
  sum_balances (<[k := z]> b) = z + sum_balances b - balance_or_zero b k.
Proof.
  unfold sum_balances, balance_or_zero. rewrite <- insert_delete_eq.
  rewrite map_fold_insert_L; [|intros; cbv beta; lia|apply lookup_delete_eq].
  destruct (b !! k) as [z0|] eqn:Hk.
  - rewrite (map_fold_delete_L (fun (_ : string) (z : Z) (acc : Z) => z + acc) 0 k z0 b);
      [lia| |exact Hk].
    intros; cbv beta; lia.
  - rewrite delete_id by exact Hk. lia.
Qed.

Lemma sum_balances_nonneg b : nonneg b -> 0 <= sum_balances b.
Proof.
  induction b as [|k z b Hk IH] using map_ind; intros Hn.
  - unfold sum_balances. rewrite map_fold_empty. lia.
  - unfold nonneg in Hn. apply map_Forall_insert in Hn as [Hz Hb]; [|exact Hk].
    rewrite sum_balances_insert. unfold balance_or_zero. rewrite Hk.
    specialize (IH Hb). lia.
Qed.

Lemma lookup_le_sum b k z : nonneg b -> b !! k = Some z -> z <= sum_balances b.
Proof.
  intros Hn Hk.
  assert (Hd : nonneg (delete k b)) by (apply map_Forall_delete; exact Hn).
  pose proof (sum_balances_nonneg _ Hd).
  unfold sum_balances in *.
  rewrite (map_fold_delete_L (fun (_ : string) (z : Z) (acc : Z) => z + acc) 0 k z b);
    [lia| |exact Hk].
  intros; cbv beta; lia.
Qed.

Lemma set_property_own b k z : is_Some (b !! k) -> set_property b k z = <[k := z]> b.
Proof.
  intros [v Hv]. unfold set_property.
  rewrite (bool_decide_eq_false_2 (b !! k = None)) by congruence.
  destruct (bool_decide (k = "__proto__")); reflexivity.
Qed.

Lemma set_property_plain b k z : k ∉ object_prototype_keys -> set_property b k z = <[k := z]> b.
Proof.
  intros Hk. unfold set_property.
  rewrite (bool_decide_eq_false_2 (k = "__proto__")); [reflexivity|].
  intros ->. apply Hk. apply (bool_decide_unpack _). vm_compute. exact I.
Qed.

Lemma getBalance_ok b k b' z :
  getBalance b k = inr (b', z) ->
  b' !! k = Some z /\ (forall j, j <> k -> b' !! j = b !! j) /\
  sum_balances b' = sum_balances b /\ z = balance_or_zero b k /\
  (nonneg b -> nonneg b').
Proof.
  unfold getBalance, get_property, balance_or_zero.
  destruct (b !! k) as [v|] eqn:Hk.
  - intros H. injection H as <- <-. split; [exact Hk|split; [reflexivity|split; [reflexivity|]]].
    split; [reflexivity|tauto].
  - case_bool_decide as Hp; intros H; [discriminate H|]. injection H as <- <-.
    rewrite set_property_plain by exact Hp.
    split; [apply lookup_insert_eq|split; [intros j Hj; apply lookup_insert_ne; congruence|]].
    split; [rewrite sum_balances_insert; unfold balance_or_zero; rewrite Hk; lia|].
    split; [reflexivity|]. intros Hn. apply map_Forall_insert_2; [lia|exact Hn].
Qed.

Lemma getBalance_inherited b k :
  b !! k = None -> k ∈ object_prototype_keys -> getBalance b k = inl BalanceNotNumeric.
Proof.
  intros Hk Hp. unfold getBalance, get_property. rewrite Hk.
  rewrite (bool_decide_eq_true_2 _ Hp). reflexivity.
Qed.

Lemma internalTransfer_ok b s r a b' :
  internalTransfer b s r a = inr b' ->
  s <> r /\ a <= balance_or_zero b s /\
  b' !! s = Some (balance_or_zero b s - a) /\
  b' !! r = Some (balance_or_zero b r + a) /\
  (forall j, j <> s -> j <> r -> b' !! j = b !! j) /\
  sum_balances b' = sum_balances b /\
  (nonneg b -> 0 <= a -> nonneg b').
Proof.
  unfold internalTransfer, tbind. case_bool_decide as Hsr; [discriminate|].
  destruct (getBalance b s) as [e|[b1 sb]] eqn:E1; [discriminate|].
  destruct (getBalance_ok _ _ _ _ E1) as (H1s & H1j & H1sum & H1z & H1n).
  destruct (Z.ltb_spec sb a) as [Hlt|Hge]; [discriminate|].
  unfold setBalance. rewrite set_property_own by (rewrite H1s; eauto).
  destruct (getBalance (<[s := sb - a]> b1) r) as [e|[b3 rb]] eqn:E3; [discriminate|].
  destruct (getBalance_ok _ _ _ _ E3) as (H3r & H3j & H3sum & H3z & H3n).
  intros H. injection H as <-.
  rewrite set_property_own by (rewrite H3r; eauto).
  assert (Hrb : rb = balance_or_zero b r).
  { rewrite H3z. unfold balance_or_zero.
    rewrite lookup_insert_ne by congruence. rewrite H1j by congruence. reflexivity. }
  split; [exact Hsr|split; [lia|]].
  split; [rewrite lookup_insert_ne by congruence; rewrite H3j by congruence;
          rewrite lookup_insert_eq; congruence|].
  split; [rewrite lookup_insert_eq; congruence|].
  split; [intros j Hjs Hjr; rewrite lookup_insert_ne by congruence;
          rewrite H3j by congruence; rewrite lookup_insert_ne by congruence;
          apply H1j; congruence|].
  split.
  - rewrite sum_balances_insert, H3sum, sum_balances_insert, H1sum.
    unfold balance_or_zero at 1 2. rewrite H3r, H1s. lia.
  - intros Hn Ha. pose proof (H1n Hn) as Hn1.
    assert (Hn2 : nonneg (<[s := sb - a]> b1)) by (apply map_Forall_insert_2; [lia|exact Hn1]).
    pose proof (H3n Hn2) as Hn3.
    apply map_Forall_insert_2; [|exact Hn3].
    pose proof (Hn3 r rb H3r). cbv beta in *. lia.
Qed.
Definition token_inv (t : MockFungibleToken) : Prop :=
  nonneg (balances t) /\ (ownerId t = "" -> totalSupply t = 0) /\
  (ownerId t <> "__proto__" -> sum_balances (balances t) = totalSupply t).

Lemma token_call_inv env m t : token_inv t -> token_inv (token_call env m t).
Proof.
  intros (Hn & He & Hs). destruct m as [o sup|a|r n|r n|snd rcv n res]; cbn [token_call].
  - unfold init. destruct (bool_decide (ownerId t = "")) eqn:Ho; cbn [negb];
      [|split; [exact Hn|split; [exact He|exact Hs]]].
    apply bool_decide_eq_true in Ho.
    destruct (bool_decide (o = "")) eqn:Hoe; [split; [exact Hn|split; [exact He|exact Hs]]|].
    apply bool_decide_eq_false in Hoe.
    destruct sup as [sup|]; [|split; [exact Hn|split; [exact He|exact Hs]]].
    destruct (Z.leb_spec sup 0); [split; [exact Hn|split; [exact He|exact Hs]]|].
    unfold setBalance, set_property; cbn [balances ownerId totalSupply].
    split; [|split; [intros Hx; cbn in Hx; congruence|]].
    + destruct (_ && _); [exact Hn|apply map_Forall_insert_2; [lia|exact Hn]].
    + intros Hnp. cbn [balances totalSupply ownerId] in *.
      rewrite (bool_decide_eq_false_2 (o = "__proto__") Hnp). cbn [andb].
      rewrite sum_balances_insert.
      assert (Hz : sum_balances (balances t) = 0)
        by (rewrite (Hs ltac:(rewrite Ho; discriminate)); exact (He Ho)).
      unfold balance_or_zero. destruct (balances t !! o) as [z|] eqn:Hz0; [|lia].
      pose proof (lookup_le_sum _ _ _ Hn Hz0). pose proof (Hn o z Hz0). cbv beta in *. lia.
  - unfold storage_deposit. set (target := match a with Some a => a | None => predecessor env end).
    destruct (has_property (balances t) target) eqn:Hh;
      [split; [exact Hn|split; [exact He|exact Hs]]|].
    unfold has_property in Hh. apply orb_false_iff in Hh as [Hown Hp].
    apply bool_decide_eq_false in Hown, Hp.
    rewrite set_property_plain by exact Hp. cbn [balances ownerId totalSupply].
    split; [apply map_Forall_insert_2; [lia|exact Hn]|split; [exact He|]].
    intros Hnp. cbn [balances ownerId totalSupply] in *.
    rewrite sum_balances_insert. unfold balance_or_zero.
    destruct (balances t !! target) eqn:Ht; [exfalso; apply Hown; eauto|]. rewrite (Hs Hnp). lia.
  - unfold ft_transfer, tbind. destruct (negb _); [split; [exact Hn|split; [exact He|exact Hs]]|].
    destruct (Z.leb_spec n 0); [split; [exact Hn|split; [exact He|exact Hs]]|].
    destruct (internalTransfer _ _ _ _) as [e|b'] eqn:E; [split; [exact Hn|split; [exact He|exact Hs]]|].
    destruct (internalTransfer_ok _ _ _ _ _ E) as (_ & _ & _ & _ & _ & Hsum & Hnn).
    cbn [balances ownerId totalSupply].
    split; [exact (Hnn Hn ltac:(lia))|split; [exact He|]].
    intros Hx. cbn [balances ownerId totalSupply] in *. rewrite Hsum. exact (Hs Hx).
  - unfold ft_transfer_call, ft_transfer, tbind.
    destruct (negb _); [split; [exact Hn|split; [exact He|exact Hs]]|].
    destruct (Z.leb_spec n 0); [split; [exact Hn|split; [exact He|exact Hs]]|].
    destruct (internalTransfer _ _ _ _) as [e|b'] eqn:E; [split; [exact Hn|split; [exact He|exact Hs]]|].
    destruct (internalTransfer_ok _ _ _ _ _ E) as (_ & _ & _ & _ & _ & Hsum & Hnn).
    cbn [balances ownerId totalSupply].
    split; [exact (Hnn Hn ltac:(lia))|split; [exact He|]].
    intros Hx. cbn [balances ownerId totalSupply] in *. rewrite Hsum. exact (Hs Hx).
  - unfold ft_resolve_transfer, tbind.
    destruct (negb _); [split; [exact Hn|split; [exact He|exact Hs]]|].
    set (u := if _ >? n then n else _).
    destruct (Z.gtb_spec u 0); [|split; [exact Hn|split; [exact He|exact Hs]]].
    destruct (internalTransfer _ _ _ _) as [e|b'] eqn:E; [split; [exact Hn|split; [exact He|exact Hs]]|].
    destruct (internalTransfer_ok _ _ _ _ _ E) as (_ & _ & _ & _ & _ & Hsum & Hnn).
    cbn [balances ownerId totalSupply].
    split; [exact (Hnn Hn ltac:(lia))|split; [exact He|]].
    intros Hx. cbn [balances ownerId totalSupply] in *. rewrite Hsum. exact (Hs Hx).
Qed.

Lemma token_reachable_inv t : token_reachable t -> token_inv t.
Proof.
  induction 1 as [|env m t _ IH].
  - split; [apply map_Forall_empty|split; [reflexivity|]].
    intros _. vm_compute. reflexivity.
  - exact (token_call_inv env m t IH).
Qed.
Lemma getBalance_plain b k :
  k ∉ object_prototype_keys \/ is_Some (b !! k) ->
  exists b', getBalance b k = inr (b', balance_or_zero b k).
Proof.
  intros Hk. unfold getBalance, get_property, balance_or_zero.
  destruct (b !! k) as [z|] eqn:Hb; [eauto|].
  destruct Hk as [Hk|[v Hv]]; [|discriminate Hv].
  rewrite (bool_decide_eq_false_2 _ Hk). eauto.
Qed.

(** [internalTransfer] refuses a transfer to oneself and a transfer above
    the sender's balance (a missing balance counting as 0); a successful
    transfer moves exactly [amount] from the sender to the receiver, leaves
    every other account as it was and keeps the sum of all balances. *)
Theorem internalTransfer_spec (b : gmap string Z) (sender receiver : string) (amount : Z) :
  (sender = receiver -> internalTransfer b sender receiver amount = inl TransferToSelf) /\
  (sender <> receiver -> sender ∉ object_prototype_keys \/ is_Some (b !! sender) ->
   balance_or_zero b sender < amount ->
   internalTransfer b sender receiver amount = inl InsufficientBalance) /\
  (forall b', internalTransfer b sender receiver amount = inr b' ->
   b' !! sender = Some (balance_or_zero b sender - amount) /\
   b' !! receiver = Some (balance_or_zero b receiver + amount) /\
   (forall j, j <> sender -> j <> receiver -> b' !! j = b !! j) /\
   sum_balances b' = sum_balances b).
Proof.
  split; [|split].
  - intros ->. unfold internalTransfer. rewrite bool_decide_eq_true_2 by reflexivity.
    reflexivity.
  - intros Hsr Hk Hlt. unfold internalTransfer, tbind.
    rewrite (bool_decide_eq_false_2 _ Hsr).
    destruct (getBalance_plain b sender Hk) as [b1 ->].
    destruct (Z.ltb_spec (balance_or_zero b sender) amount); [reflexivity|lia].
  - intros b' H. destruct (internalTransfer_ok _ _ _ _ _ H) as (_ & _ & A & B & C & D & _).
    split; [exact A|split; [exact B|split; [exact C|exact D]]].
Qed.

Lemma internalTransfer_spec_witness :
  internalTransfer (<["alice" := 10]> ∅) "alice" "bob" 3 =
  inr (<["bob" := 3]> (<["alice" := 7]> ∅)) /\
  (<["bob" := 3]> (<["alice" := 7]> ∅) : gmap string Z) !! "alice" =
    Some (balance_or_zero (<["alice" := 10]> ∅) "alice" - 3).
Proof.
  split; [vm_compute; reflexivity|].
  apply (proj2 (proj2 (internalTransfer_spec (<["alice" := 10]> ∅) "alice" "bob" 3))).
  vm_compute. reflexivity.
Defined.

(** [ft_balance_of] answers 0 for an unknown account, but throws for an
    unknown account whose name is a property of [Object.prototype] (such as
    [constructor] or [toString]); otherwise it returns the stored balance. *)
Theorem ft_balance_of_spec (t : MockFungibleToken) (k : string) :
  (balances t !! k = None -> k ∈ object_prototype_keys ->
   ft_balance_of t k = inl BalanceNotNumeric) /\
  (k ∉ object_prototype_keys \/ is_Some (balances t !! k) ->
   ft_balance_of t k = inr (balance_or_zero (balances t) k)).
Proof.
  unfold ft_balance_of, tbind. split.
  - intros Hk Hp. rewrite getBalance_inherited by assumption. reflexivity.
  - intros Hk. destruct (getBalance_plain _ _ Hk) as [b' ->]. reflexivity.
Qed.

Lemma ft_balance_of_spec_witness :
  ft_balance_of default_token "constructor" = inl BalanceNotNumeric /\
  ft_balance_of default_token "carol" = inr 0.
Proof.
  split.
  - apply (proj1 (ft_balance_of_spec default_token "constructor")); [reflexivity|].
    apply (bool_decide_unpack _). vm_compute. exact I.
  - apply (proj2 (ft_balance_of_spec default_token "carol")). left.
    apply (bool_decide_unpack _). vm_compute. exact I.
Defined.

(** After [storage_deposit], [storage_balance_of] reports the target account
    (the given one, or the caller) as registered, and no existing balance,
    the owner or the total supply has changed. *)
Theorem storage_deposit_registers (env : Env) (account_id : option string)
    (t : MockFungibleToken) :
  let target := match account_id with Some a => a | None => predecessor env end in
  target <> "" ->
  storage_balance_of (storage_deposit env account_id t) target = inr (Some tt) /\
  ownerId (storage_deposit env account_id t) = ownerId t /\
  totalSupply (storage_deposit env account_id t) = totalSupply t /\
  (forall k z, balances t !! k = Some z -> balances (storage_deposit env account_id t) !! k = Some z).
Proof.
  intros target Hne. unfold storage_deposit; fold target.
  destruct (has_property (balances t) target) eqn:Hh.
  - unfold storage_balance_of. rewrite (bool_decide_eq_false_2 _ Hne), Hh.
    split; [reflexivity|split; [reflexivity|split; [reflexivity|]]]. tauto.
  - unfold has_property in Hh. apply orb_false_iff in Hh as [Hown Hp].
    apply bool_decide_eq_false in Hown, Hp.
    unfold storage_balance_of; cbn [balances ownerId totalSupply].
    rewrite (bool_decide_eq_false_2 _ Hne), set_property_plain by exact Hp.
    unfold has_property. rewrite lookup_insert_eq.
    rewrite (bool_decide_eq_true_2 (is_Some (Some 0))) by eauto.
    split; [reflexivity|split; [reflexivity|split; [reflexivity|]]].
    intros k z Hk. rewrite lookup_insert_ne; [exact Hk|].
    intros ->. apply Hown. eauto.
Qed.

Lemma storage_deposit_registers_witness :
  storage_balance_of (storage_deposit admin_env (Some "vesting") default_token) "vesting"
  = inr (Some tt).
Proof.
  exact (proj1 (storage_deposit_registers admin_env (Some "vesting") default_token
                  ltac:(discriminate))).
Defined.
(** [ft_transfer] and [ft_transfer_call] require exactly one yoctoNEAR and
    a positive amount; a successful transfer debits the caller and credits
    the receiver by the amount and changes neither the owner nor the total
    supply; [ft_transfer_call] makes the same state change as [ft_transfer]
    and chains the promise for the transferred amount. *)
Theorem ft_transfer_spec (env : Env) (receiver_id : string) (amount : Z)
    (t : MockFungibleToken) :
  (attachedDeposit env <> ONE_YOCTO ->
   ft_transfer env receiver_id amount t = inl MissingOneYoctoDeposit) /\
  (amount <= 0 -> ft_transfer env receiver_id amount t = inl MissingOneYoctoDeposit \/
                  ft_transfer env receiver_id amount t = inl NonPositiveTransfer) /\
  (forall t', ft_transfer env receiver_id amount t = inr t' ->
   0 < amount /\ ownerId t' = ownerId t /\ totalSupply t' = totalSupply t /\
   balances t' !! predecessor env = Some (balance_or_zero (balances t) (predecessor env) - amount) /\
   balances t' !! receiver_id = Some (balance_or_zero (balances t) receiver_id + amount) /\
   (forall j, j <> predecessor env -> j <> receiver_id -> balances t' !! j = balances t !! j)) /\
  (forall r, ft_transfer_call env receiver_id amount t = r ->
   match r with
   | inl e => ft_transfer env receiver_id amount t = inl e
   | inr (t', p) => ft_transfer env receiver_id amount t = inr t' /\
                    p = (predecessor env, receiver_id, amount)
   end).
Proof.
  split; [|split; [|split]].
  - intros Hd. unfold ft_transfer. rewrite (proj2 (Z.eqb_neq _ _) Hd). reflexivity.
  - intros Ha. unfold ft_transfer. destruct (negb _); [left; reflexivity|right].
    destruct (Z.leb_spec amount 0); [reflexivity|lia].
  - intros t' H. unfold ft_transfer, tbind in H. destruct (negb _); [discriminate H|].
    destruct (Z.leb_spec amount 0); [discriminate H|].
    destruct (internalTransfer _ _ _ _) as [e|b'] eqn:E; [discriminate H|].
    injection H as <-. cbn [ownerId totalSupply balances].
    destruct (internalTransfer_ok _ _ _ _ _ E) as (_ & _ & A & B & C & _).
    split; [lia|split; [reflexivity|split; [reflexivity|split; [exact A|split; [exact B|exact C]]]]].
  - intros r <-. unfold ft_transfer_call, tbind.
    destruct (ft_transfer env receiver_id amount t); [reflexivity|split; reflexivity].
Qed.

Lemma ft_transfer_spec_witness :
  ft_transfer (mkEnv "alice" "token" 1 0 true) "bob" 3
    (mkToken "alice" 10 (<["alice" := 10]> ∅)) =
  inr (mkToken "alice" 10 (<["bob" := 3]> (<["alice" := 7]> ∅))) /\
  0 < 3.
Proof.
  split; [vm_compute; reflexivity|].
  apply (proj1 (proj2 (proj2 (ft_transfer_spec (mkEnv "alice" "token" 1 0 true) "bob" 3
           (mkToken "alice" 10 (<["alice" := 10]> ∅)))))
           (mkToken "alice" 10 (<["bob" := 3]> (<["alice" := 7]> ∅)))).
  vm_compute. reflexivity.
Defined.



(** In every reachable token state all balances are non-negative, and the
    balances add up to [totalSupply] unless the owner passed to [init] is
    the name [__proto__]. *)
Theorem token_supply_invariant (t : MockFungibleToken) :
  token_reachable t ->
  (forall k z, balances t !! k = Some z -> 0 <= z) /\
  (ownerId t <> "__proto__" -> sum_balances (balances t) = totalSupply t).
Proof.
  intros Ht. destruct (token_reachable_inv t Ht) as (Hn & _ & Hs).
  split; [exact Hn|exact Hs].
Qed.

Definition token_demo : MockFungibleToken :=
  token_call (mkEnv "alice" "token" 1 0 true) (TTransfer "bob" 3)
    (token_call admin_env (TInit "alice" (Some 10)) default_token).

Lemma token_supply_invariant_witness :
  sum_balances (balances token_demo) = totalSupply token_demo.
Proof.
  apply (proj2 (token_supply_invariant token_demo
           ltac:(unfold token_demo; repeat constructor))).
  vm_compute. discriminate.
Defined.

(** [init] with the owner name [__proto__] succeeds and records the total
    supply, but the write of the owner's balance is swallowed by the
    [__proto__] setter: no account is credited. *)
Theorem init_proto_owner (t : MockFungibleToken) (supply : Z) :
  ownerId t = "" -> balances t !! "__proto__" = None -> 0 < supply ->
  init "__proto__" (Some supply) t = inr (mkToken "__proto__" supply (balances t)).
Proof.
  intros Ho Hp Hs. unfold init, setBalance, set_property.
  rewrite (bool_decide_eq_true_2 _ Ho). cbn [negb].
  rewrite (bool_decide_eq_false_2 ("__proto__" = "")) by discriminate.
  destruct (Z.leb_spec supply 0); [lia|].
  rewrite (bool_decide_eq_true_2 ("__proto__" = "__proto__")) by reflexivity.
  rewrite (bool_decide_eq_true_2 _ Hp). reflexivity.
Qed.

Lemma init_proto_owner_witness :
  init "__proto__" (Some 1000) default_token = inr (mkToken "__proto__" 1000 ∅).
Proof. apply (init_proto_owner default_token 1000); [reflexivity|reflexivity|lia]. Defined.
End MockTokenProofs.

(** ** More properties of the vesting contract *)

Lemma set_investors_twice a b s : set_investors a (set_investors b s) = set_investors a s.
Proof. destruct s; reflexivity. Qed.

Lemma set_investors_self s : set_investors (investors s) s = s.
Proof. destruct s; reflexivity. Qed.

Lemma upsert_loop_shape seen es :
  forall s u s', upsert_loop seen es s = Ret u s' -> s' = set_investors (investors s') s.
Proof.
  induction es as [|e rest IH] in seen |- *; intros s u s' H.
  - cbn in H. injection H as <- <-. symmetry. apply set_investors_self.
  - cbn [upsert_loop] in H. crunch H; rewrite (IH _ _ _ _ H) at 1; apply set_investors_twice.
Qed.

(** A successful [upsert_investors] was called by the owner with a
    non-empty batch; every entry carries a positive amount and names a
    configured group, and an account new to the ledger gets the record
    [(group, amount, claimed = 0)].  Accounts outside the batch, the groups
    and all counters are left as they were. *)
Theorem upsert_investors_effect (env : Env) (es : list InvestorInput)
    (s s' : InvestorVesting) :
  run (upsert_investors env es) s = (s', inr tt) ->
  predecessor env = owner s /\ es <> [] /\
  (forall e, e ∈ es -> exists amt, amount e = Some amt /\ 0 < amt /\
     is_Some (groups s !! group_id e) /\
     (investors s !! account_id e = None ->
      investors s' !! account_id e = Some (mkInvestor (group_id e) amt 0))) /\
  (forall k, k ∉ map account_id es -> investors s' !! k = investors s !! k) /\
  s' = set_investors (investors s') s.
Proof.
  unfold run, commit.
  destruct (upsert_investors env es s) as [u s1|err s1] eqn:E; intros H; [|discriminate H].
  injection H as <-.
  pose proof (upsert_investors_ret _ _ _ _ _ E) as Hl.
  unfold upsert_investors, assertOwner in E. crunch E.
  apply negb_false_iff, bool_decide_eq_true in E0. apply bool_decide_eq_false in E1.
  destruct (upsert_loop_valid _ _ _ _ _ Hl) as [Hf _].
  destruct (upsert_loop_frame _ _ _ _ _ Hl) as [_ Hk].
  split; [exact E0|split; [exact E1|split; [|split; [exact Hk|exact (upsert_loop_shape _ _ _ _ _ Hl)]]]].
  intros e He. destruct (proj1 (Forall_forall _ _) Hf e He) as [Hv _].
  unfold investor_entry_invalid in Hv.
  destruct (amount e) as [amt|] eqn:Ha; [|tauto].
  exists amt. split; [reflexivity|split; [|split]].
  - destruct (Z.le_gt_cases amt 0); [|lia]. exfalso. apply Hv. right; right; right; right; left. eauto.
  - destruct (groups s !! group_id e) eqn:Hg; [eauto|tauto].
  - intros Hnone. rewrite (upsert_loop_result _ _ _ _ _ Hl e amt He Ha), Hnone. reflexivity.
Qed.

Lemma upsert_investors_effect_witness :
  investors (fst (run (upsert_investors admin_env [mkInvestorInput "carol" "seed" (Some 5)])
                    sample_contract)) !! "carol" = Some (mkInvestor "seed" 5 0).
Proof.
  destruct (upsert_investors_effect admin_env [mkInvestorInput "carol" "seed" (Some 5)]
              sample_contract
              (fst (run (upsert_investors admin_env [mkInvestorInput "carol" "seed" (Some 5)])
                      sample_contract))
              ltac:(vm_compute; reflexivity)) as (_ & _ & Hes & _).
  destruct (Hes (mkInvestorInput "carol" "seed" (Some 5)) ltac:(apply elem_of_cons; left; reflexivity))
    as (amt & Ha & _ & _ & Hn).
  cbn in Ha. injection Ha as <-. apply Hn. vm_compute. reflexivity.
Defined.

(** With no overlay ([initialClaimBasisPoints = 0]) and no post-cliff
    share, the current [computeVestedAmount] gives exactly the earlier
    revision's linear schedule, for any non-negative allocation. *)
Theorem computeVestedAmount_refines_v0 (self : InvestorVesting) (total : Z)
    (cliff vesting now : Z) :
  0 <= total -> initialClaimBasisPoints self = 0 ->
  computeVestedAmount self total (mkGroup cliff vesting 0) now =
  computeVestedAmountV0 (tgeTimestampNs self) total (mkGroupV0 cliff vesting) now.
Proof.
  intros Ht Hb. rewrite computeVestedAmount_eq; cbv zeta.
  unfold computeVestedAmountV0; cbn [cliffDurationNs vestingDurationNs initialUnlockBasisPoints
    cliffDurationNsV0 vestingDurationNsV0]; cbv zeta.
  rewrite Hb, !Z.mul_0_r, !Z.quot_0_l by lia.
  replace (Z.min total 0) with 0 by lia.
  replace (Z.min (total - 0) 0) with 0 by lia.
  replace (if now >=? initialClaimAvailableTimestampNs self then 0 else 0) with 0
    by (destruct (now >=? _); reflexivity).
  destruct (Z.ltb_spec now (tgeTimestampNs self + cliff)); [lia|].
  destruct (Z.eqb_spec vesting 0); [reflexivity|].
  destruct (Z.geb_spec (now - (tgeTimestampNs self + cliff)) vesting); [reflexivity|].
  pose proof (quot_share_le total (now - (tgeTimestampNs self + cliff)) vesting
                Ht ltac:(lia) ltac:(lia)).
  rewrite !Z.sub_0_r. lia.
Qed.

Lemma computeVestedAmount_refines_v0_witness :
  computeVestedAmount (mkContract "o" "t" 100 0 90 0 0 0 0 ∅ ∅) 50 (mkGroup 12 12 0) 118 =
  computeVestedAmountV0 100 50 (mkGroupV0 12 12) 118.
Proof.
  apply (computeVestedAmount_refines_v0 (mkContract "o" "t" 100 0 90 0 0 0 0 ∅ ∅) 50 12 12 118);
    [lia|reflexivity].
Defined.


(** Claiming twice at the same time: after a successful [claim], the same
    call again fails with [NothingToClaim] (and so changes nothing): a claim
    always pays out everything vested so far. *)
Theorem claim_twice_nothing (env : Env) (a : option string) (s s' : InvestorVesting)
    (tr : Transfer) :
  run (claim env a) s = (s', inr tr) ->
  run (claim env a) s' = (s', inl NothingToClaim).
Proof.
  unfold run, commit.
  destruct (claim env a s) as [t1 s1|e s1] eqn:E; intros H; [|discriminate H].
  injection H as <- _.
  set (claimant := match a with Some x => x | None => predecessor env end) in *.
  unfold claim, assertOneYocto in E.
  cbv beta iota zeta delta [bind when ret throw get modify] in E. fold claimant in E.
  destruct (negb (attachedDeposit env =? ONE_YOCTO)) eqn:Hd; [discriminate E|].
  destruct (negb _ && negb _) eqn:Hb; [discriminate E|].
  destruct (investors s !! claimant) as [r|] eqn:Hr; [|discriminate E].
  set (c := computeClaimable s claimant (blockTimestamp env)) in *.
  destruct (c <=? 0) eqn:Hc0; [discriminate E|].
  destruct (c >? poolBalance s) eqn:Hcp; [discriminate E|].
  injection E as _ <-.
  unfold claim, assertOneYocto. mred. fold claimant. rewrite Hd.
  cbn [owner set_poolBalance set_totalClaimed set_investors investors].
  rewrite Hb. rewrite lookup_insert_eq.
  assert (Hz : computeClaimable
     (set_poolBalance (poolBalance s - c)
        (set_totalClaimed (totalClaimed s + c)
           (set_investors
              (<[claimant := mkInvestor (groupId r) (totalAllocation r) (claimed r + c)]>
                 (investors s)) s))) claimant (blockTimestamp env) = 0).
  { assert (Hcv : exists g, groups s !! groupId r = Some g /\
              c = computeVestedAmount s (totalAllocation r) g (blockTimestamp env) - claimed r /\
              0 < c).
    { unfold c, computeClaimable in Hc0 |- *. rewrite Hr in Hc0 |- *. revert Hc0.
      destruct (groups s !! groupId r) as [g|]; [|cbn; discriminate].
      destruct (Z.eqb_spec (totalAllocation r) (claimed r)); [cbn; discriminate|].
      destruct (Z.leb_spec (computeVestedAmount s (totalAllocation r) g (blockTimestamp env))
                  (claimed r)); [cbn; discriminate|].
      intros Hc0. rewrite Z.leb_gt in Hc0.
      exists g. split; [reflexivity|split; [reflexivity|lia]]. }
    destruct Hcv as (g & Hg & Hcv & Hpos). clearbody c. subst c.
    unfold computeClaimable.
    cbn [investors groups set_poolBalance set_totalClaimed set_investors].
    rewrite lookup_insert_eq. cbn [groupId totalAllocation claimed]. rewrite Hg.
    change (computeVestedAmount
              (set_poolBalance _ (set_totalClaimed _ (set_investors _ s))) (totalAllocation r) g
              (blockTimestamp env))
      with (computeVestedAmount s (totalAllocation r) g (blockTimestamp env)).
    replace (claimed r + (computeVestedAmount s (totalAllocation r) g (blockTimestamp env)
                          - claimed r))
      with (computeVestedAmount s (totalAllocation r) g (blockTimestamp env)) by lia.
    destruct (totalAllocation r =? computeVestedAmount s (totalAllocation r) g (blockTimestamp env));
      [reflexivity|]. rewrite Z.leb_refl. reflexivity. }
  rewrite Hz. reflexivity.
Qed.

Lemma claim_twice_nothing_witness :
  run (claim alice_env None) (fst (run (claim alice_env None) (contract demo_w3))) =
  (fst (run (claim alice_env None) (contract demo_w3)), inl NothingToClaim).
Proof.
  apply (claim_twice_nothing alice_env None (contract demo_w3)
           (fst (run (claim alice_env None) (contract demo_w3))) (ClaimTransfer "alice" 28)).
  vm_compute. reflexivity.
Defined.

(** In the earlier revision, a group whose id is an [Object.prototype]
    property name (such as [constructor]) is always rejected, as a
    duplicate, and the whole group list fails. *)
Theorem setGroupsInternalV0_rejects_prototype_names (gs : list GroupConfigInput)
    (g : GroupConfigInput) :
  g ∈ gs -> id g ∈ MockToken.object_prototype_keys ->
  exists e, setGroupsInternalV0 gs = inl e.
Proof.
  intros Hin Hp. unfold setGroupsInternalV0.
  destruct (bool_decide (gs = [])); [eauto|].
  generalize (∅ : gmap string GroupConfigStoredV0) as next.
  induction gs as [|g0 rest IH]; intros next.
  - apply list_elem_of_In in Hin. destruct Hin.
  - cbn [setGroupsInternalV0_loop].
    destruct (bool_decide (id g0 = "")); [eauto|].
    apply elem_of_cons in Hin as [->|Hin].
    + rewrite (bool_decide_eq_true_2 (_ ∈ _) Hp), orb_true_r. eauto.
    + destruct (_ || _); [eauto|]. destruct (_ || _); [eauto|]. apply IH. exact Hin.
Qed.

Lemma setGroupsInternalV0_rejects_prototype_names_witness :
  setGroupsInternalV0 [mkGroupInput "seed" 12 12 None; mkGroupInput "constructor" 0 10 None]
  = inl DuplicateGroupId.
Proof.
  destruct (setGroupsInternalV0_rejects_prototype_names
              [mkGroupInput "seed" 12 12 None; mkGroupInput "constructor" 0 10 None]
              (mkGroupInput "constructor" 0 10 None)
              ltac:(apply elem_of_cons; right; apply elem_of_cons; left; reflexivity)
              ltac:(apply (bool_decide_unpack _); vm_compute; exact I)) as [e He].
  rewrite He. vm_compute in He. symmetry; exact He.
Defined.
